(** * bob-router: the route-matching and step-execution engine

    A shallow embedding of [src/index.js]: [Route], [Router] ([add], [match],
    [exec], [child]) and the Vuex module built by the default export
    ([navigate] with its current-handle protocol).

    JavaScript objects used as dictionaries (the params bag, object steps)
    are finite maps from property names to values; routers live in a heap and
    are referred to by their address, because [child] closes over the child
    router and [add] mutates the parent in place. *)

From Stdlib Require Import Ascii.
From stdpp Require Import gmap strings list fin_maps pretty sorting.

Open Scope string_scope.
Open Scope list_scope.
Open Scope nat_scope.

(** ** JavaScript values *)

(** A router's address in the heap of routers. *)
Abbreviation RouterId := nat.

(** [Error(message)] and [TypeError(message)] objects: [name] is the
    constructor's name. *)
Record Error := MkError { error_name : string; error_message : string }.

#[global] Instance Error_eq_dec : EqDecision Error.
Proof. solve_decision. Defined.

(** The values a params bag holds.  A number is an integer or NaN (the code
    only builds capture indices and their successors and predecessors); a
    router or a route is a reference: the router's address, and the route's
    position in that router's append-only [routes] array. *)
Inductive value :=
  | VUndefined
  | VNull
  | VBool (b : bool)
  | VNum (z : Z)
  | VNaN
  | VStr (s : string)
  | VRouter (r : RouterId)
  | VRoute (r : RouterId) (i : nat)
  | VError (e : Error).

#[global] Instance value_eq_dec : EqDecision value.
Proof. solve_decision. Defined.

Abbreviation Bag := (gmap string value).

(** [obj[k]]: an absent property reads as [undefined]. *)
Definition get (b : Bag) (k : string) : value := default VUndefined (b !! k).

(** Truthiness, as tested by [params.route ? ... : ...]. *)
Definition truthy (v : value) : bool :=
  match v with
  | VUndefined | VNull | VNaN => false
  | VBool b => b
  | VNum z => negb (z =? 0)%Z
  | VStr s => negb (String.eqb s "")
  | VRouter _ | VRoute _ _ | VError _ => true
  end.

Definition is_digit (c : Ascii.ascii) : bool :=
  let n := Ascii.nat_of_ascii c in ((48 <=? n) && (n <=? 57))%nat.

Fixpoint digits_value (acc : Z) (s : string) : option Z :=
  match s with
  | "" => Some acc
  | String c s' =>
      if is_digit c
      then digits_value (10 * acc + Z.of_nat (Ascii.nat_of_ascii c - 48)%nat)%Z s'
      else None
  end.

(** ToNumber.  On strings it is exact for the empty string and for plain
    decimal digit strings; every other string is taken to NaN (signs,
    fractions, exponents, radix prefixes and surrounding blanks are outside
    the integers this development works with). *)
Definition to_number (v : value) : option Z :=
  match v with
  | VNum z => Some z
  | VNull => Some 0%Z
  | VBool b => Some (if b then 1 else 0)%Z
  | VStr s => digits_value 0 s
  | VUndefined | VNaN | VRouter _ | VRoute _ _ | VError _ => None
  end.

Definition of_number (n : option Z) : value :=
  match n with Some z => VNum z | None => VNaN end.

(** ToString, as applied by ['/' + v] and by a computed property name. *)
Definition to_string (v : value) : string :=
  match v with
  | VUndefined => "undefined"
  | VNull => "null"
  | VBool b => if b then "true" else "false"
  | VNum z => pretty z
  | VNaN => "NaN"
  | VStr s => s
  | VRouter _ | VRoute _ _ => "[object Object]"
  | VError e =>
      if String.eqb (error_message e) "" then error_name e
      else error_name e +:+ ": " +:+ error_message e
  end.

(** ** Compiled patterns (path-to-regexp)

    [pathToRegexp(path)] is an external library: the code uses only
    [re.exec(path)] and the [name] of each entry of [re.keys], a string for
    a named capture and a number for an unnamed one. *)
Inductive KeyName :=
  | NameStr (s : string)
  | NameNum (n : nat).

Record Key := MkKey { name : KeyName }.

(** The property a key's name selects in a bag: [params[key.name]]. *)
Definition prop_of (k : KeyName) : string :=
  match k with
  | NameStr s => s
  | NameNum n => pretty n
  end.

(** [re_exec p] is [None] when [re.exec(p)] is [null], and otherwise the
    match array: the matched text at index 0 and the capture groups after
    it, a group that took no part in the match being [undefined]. *)
Record RegExp := MkRegExp {
  re_exec : string → option (list (option string));
  re_keys : list Key;
}.

(** [match[j]] *)
Definition match_at (m : list (option string)) (j : nat) : value :=
  match m !! j with
  | Some (Some s) => VStr s
  | _ => VUndefined
  end.

(** How a promise settles. *)
Inductive Settled (A : Type) :=
  | Fulfilled (a : A)
  | Rejected (e : Error).
Arguments Fulfilled {A} a.
Arguments Rejected {A} e.

Section Router.

(** The application's store state ([rootState]), which the steps read and
    change through [state], [dispatch] and [commit]. *)
Context {AppState : Type}.

(** ** Promises

    A promise-returning computation acts on the store state and on the one
    params bag of the pipeline; it is fulfilled with a value or rejected
    with an error.  [None] stands for a promise that has not settled within
    the given recursion budget (see [exec]). *)
Definition St : Type := AppState * Bag.
Definition Promise (A : Type) : Type := St → option (Settled A * St).

Definition resolve {A} (a : A) : Promise A := λ st, Some (Fulfilled a, st).
Definition reject {A} (e : Error) : Promise A := λ st, Some (Rejected e, st).

(** [p.then(k)] *)
Definition then_ {A B} (p : Promise A) (k : A → Promise B) : Promise B :=
  λ st,
    match p st with
    | Some (Fulfilled a, st') => k a st'
    | Some (Rejected e, st') => Some (Rejected e, st')
    | None => None
    end.

(** [Promise.mapSeries(l, f)]: the iterator runs on one element at a time,
    in order, each after the previous promise is fulfilled; the first
    rejection rejects the whole. *)
Fixpoint mapSeries {A B} (f : A → Promise B) (l : list A) : Promise (list B) :=
  match l with
  | [] => resolve []
  | x :: l' => then_ (f x) (λ y, then_ (mapSeries f l') (λ ys, resolve (y :: ys)))
  end.

(** ** Steps, routes and routers *)

(** What a step's promise is fulfilled with: an object, or nothing of use. *)
Definition StepValue : Type := option Bag.

(** A function step [step({state, dispatch, commit}, params)] and a
    dispatched action [dispatch(name, params)]: it may change the store and
    the bag it is handed, and settles. *)
Definition StepFn : Type := AppState → Bag → Settled StepValue * AppState * Bag.

(** A step is told apart by [typeof]: a string, a function, or anything
    else (an object).  The function that [child] pushes is kept apart from
    the user's functions: it is the one closure that refers to a router. *)
Inductive Step :=
  | StepString (action : string)
  | StepFunction (f : StepFn)
  | StepDelegate (child : RouterId)
  | StepObject (o : Bag).

Record Route := MkRoute {
  route_path : string;
  route_re : RegExp;
  route_steps : list Step;
}.

Record Router := MkRouter {
  basePath : string;
  baseRoute : option (RouterId * nat);
  parentRouter : option RouterId;
  storeModule : bool;
  routes : list Route;
}.

(** [new Router()] *)
Definition new_Router : Router :=
  {| basePath := ""; baseRoute := None; parentRouter := None;
     storeModule := false; routes := [] |}.

(** The routers allocated so far, by address. *)
Local Abbreviation Heap := (list Router).

Definition routes_of (H : Heap) (r : RouterId) : list Route :=
  match H !! r with
  | Some R => routes R
  | None => []
  end.

(** ** Router.match *)

(** [re.keys.forEach((key, i) => { ... })], from index [i] on. *)
Fixpoint bind_keys (m : list (option string)) (keys : list Key) (i : nat)
    (params : Bag) : Bag :=
  match keys with
  | [] => params
  | key :: keys' =>
      let params := <[prop_of (name key) := match_at m (i + 1)]> params in
      let params :=
        match name key with
        | NameNum n => <["length" := VNum (Z.of_nat n + 1)]> params
        | NameStr _ => params
        end in
      bind_keys m keys' (S i) params
  end.

(** [this.routes.find(({ re }) => { ... })], scanning from position [i]:
    the position of the first route whose pattern matches, and the bag as
    the callback leaves it. *)
Fixpoint find_route (rs : list Route) (i : nat) (path : string) (params : Bag)
    : option nat * Bag :=
  match rs with
  | [] => (None, params)
  | r :: rs' =>
      match re_exec (route_re r) path with
      | Some m =>
          (Some i,
           bind_keys m (re_keys (route_re r)) 0 (<["length" := VNum 0]> params))
      | None => find_route rs' (S i) path params
      end
  end.

Definition match_ (H : Heap) (this : RouterId) (path : string) (params : Bag)
    : Bag :=
  let params := <["router" := VRouter this]> params in
  let '(found, params) := find_route (routes_of H this) 0 path params in
  <["route" := match found with
               | Some i => VRoute this i
               | None => VUndefined
               end]> params.

(** ** Router.exec *)

(** The store handed to [exec] as [{ state, dispatch, commit }]: [state] is
    the threaded [AppState], which [commit] changes; [dispatch] runs a named
    action. *)
Record Store := MkStore { dispatch : string → StepFn }.

Definition NotFound : Error := MkError "Error" "Not found".

Definition lift_fn (f : StepFn) : Promise StepValue :=
  λ '(s, params), let '(r, s', params') := f s params in Some (r, (s', params')).

(** What the closure pushed by [child] does to the bag before it calls the
    child router:
<<
    const restIdx = --params.length;
    const path = '/' + params[restIdx];
    delete params[restIdx];
>>
    It gives [path] and the bag so pruned. *)
Definition take_rest (params : Bag) : string * Bag :=
  let restIdx := of_number ((λ z, z - 1)%Z <$> to_number (get params "length")) in
  let params := <["length" := restIdx]> params in
  let path := "/" +:+ to_string (get params (to_string restIdx)) in
  (path, delete (to_string restIdx) params).

(** The iterator [exec] hands to [Promise.mapSeries]; [exec'] is [exec]
    itself, for the call [child.exec(store, path, params)]. *)
Definition run_step (exec' : RouterId → string → Promise Bag) (ctx : Store)
    (step : Step) : Promise StepValue :=
  match step with
  | StepString action => lift_fn (dispatch ctx action)
  | StepFunction f => lift_fn f
  | StepDelegate child =>
      λ '(s, params),
        let '(path, params) := take_rest params in
        then_ (exec' child path) (λ b, resolve (Some b)) (s, params)
  | StepObject o =>
      λ '(s, params), Some (Fulfilled None, (s, o ∪ params))
  end.

(** [params.route.steps]; [match_] has just set [params.route] to a route
    of the router or to [undefined]. *)
Definition steps_of (H : Heap) (v : value) : list Step :=
  match v with
  | VRoute r i =>
      match routes_of H r !! i with
      | Some rt => route_steps rt
      | None => []
      end
  | _ => []
  end.

(** [(error) => { params.error = error; }] *)
Definition set_error (e : Error) : Promise unit :=
  λ '(s, params), Some (Fulfilled tt, (s, <["error" := VError e]> params)).

(** [p.catch(h)], the handler's result taking the place of a rejection. *)
Definition catch_ {A B} (p : Promise A) (h : Error → Promise B)
    : Promise (A + B) :=
  λ st,
    match p st with
    | Some (Fulfilled a, st') => Some (Fulfilled (inl a), st')
    | Some (Rejected e, st') => then_ (h e) (λ b, resolve (inr b)) st'
    | None => None
    end.

(** [p.return(params)]: fulfilled with the bag object once [p] is. *)
Definition return_params {A} (p : Promise A) : Promise Bag :=
  then_ p (λ _ st, Some (Fulfilled (snd st), st)).

Definition exec_body (exec' : RouterId → string → Promise Bag) (H : Heap)
    (ctx : Store) (this : RouterId) (path : string) : Promise Bag :=
  λ '(s, params),
    let params := match_ H this path params in
    return_params
      (catch_
         (if truthy (get params "route")
          then mapSeries (run_step exec' ctx) (steps_of H (get params "route"))
          else reject NotFound)
         set_error)
      (s, params).

(** [exec]: a router reached through [fuel] nested [child.exec] calls at
    most; beyond that depth the promise counts as not settled. *)
Fixpoint exec (fuel : nat) (H : Heap) (ctx : Store) (this : RouterId)
    (path : string) : Promise Bag :=
  match fuel with
  | 0 => λ _, None
  | S fuel' => exec_body (exec fuel' H ctx) H ctx this path
  end.

(** ** Registration: Router.add and Router.child *)

(** [path.replace(/\/+$/, '')] *)
Fixpoint normalizePath (path : string) : string :=
  match path with
  | "" => ""
  | String c rest =>
      match normalizePath rest with
      | "" => if Ascii.eqb c "/"%char then "" else String c ""
      | rest' => String c rest'
      end
  end.

(** [n] slashes. *)
Fixpoint slashes (n : nat) : string :=
  match n with
  | 0 => ""
  | S n' => String "/" (slashes n')
  end.

Section Registration.

Variable pathToRegexp : string → RegExp.

(** [new Route(basePath, path, steps)]; the URL generator [_url], compiled
    from [basePath + path], serves [url] only and is left out. *)
Definition new_Route (basePath : string) (path : string) (steps : list Step)
    : Route :=
  {| route_path := path; route_re := pathToRegexp path; route_steps := steps |}.

Definition push_route (route : Route) (R : Router) : Router :=
  {| basePath := basePath R; baseRoute := baseRoute R;
     parentRouter := parentRouter R; storeModule := storeModule R;
     routes := routes R ++ [route] |}.

(** [add(path, ...steps)]: the heap after the push, and the new route's
    position in [this.routes]. *)
Definition add (H : Heap) (this : RouterId) (path : string) (steps : list Step)
    : Heap * nat :=
  match H !! this with
  | Some R =>
      let route := new_Route (basePath R) path steps in
      (<[this := push_route route R]> H, length (routes R))
  | None => (H, 0)
  end.

Definition push_step (step : Step) (rt : Route) : Route :=
  {| route_path := route_path rt; route_re := route_re rt;
     route_steps := route_steps rt ++ [step] |}.

Definition alter_route (f : Route → Route) (i : nat) (R : Router) : Router :=
  {| basePath := basePath R; baseRoute := baseRoute R;
     parentRouter := parentRouter R; storeModule := storeModule R;
     routes := alter f i (routes R) |}.

(** [child(path, ...steps)]: the heap with the child router allocated and
    the delegating route added to [this], and the child's address.
    [this.constructor] is taken to be [Router]. *)
Definition child (H : Heap) (this : RouterId) (path : string)
    (steps : list Step) : Heap * RouterId :=
  let path := normalizePath path in
  let child := length H in
  let H := H ++ [new_Router] in
  let this_basePath := from_option basePath "" (H !! this) in
  let this_storeModule := from_option storeModule false (H !! this) in
  let child_basePath := normalizePath this_basePath +:+ path in
  let '(H, i) := add H this (path +:+ "/*") steps in
  let H :=
    alter (λ C, {| basePath := child_basePath; baseRoute := Some (this, i);
                   parentRouter := Some this; storeModule := this_storeModule;
                   routes := routes C |}) child H in
  let H := alter (alter_route (push_step (StepDelegate child)) i) this H in
  (H, child).

End Registration.

(** ** The navigation module (the default export)

    JavaScript runs one callback at a time.  A navigation is a task: its
    private bag, the handle it was started with, and what is left to do.
    Each transition below is one callback run to completion; a scheduler
    picks which task moves next.  A step is taken as one transition, the one
    at which its promise settles.  Steps act on the application's store
    state and on the bag they are handed. *)

(** [{ path }]: an object compared by identity, so it carries its address. *)
Record Handle := MkHandle { handle_id : nat; handle_path : string }.

(** The module's [state]. *)
Record State := MkState {
  progress : bool;
  state_path : string;
  state_params : Bag;
}.

(** The mutations. *)
Definition navigating (st : State) : State :=
  {| progress := true; state_path := state_path st;
     state_params := state_params st |}.

Definition navigated (st : State) (path : string) (params : Bag) : State :=
  {| progress := false; state_path := path; state_params := params |}.

(** What a call [router.post(params)] comes to: it throws, it returns a
    value that is no promise, or it returns a promise that settles. *)
Inductive HookResult :=
  | HookThrows (e : Error)
  | HookReturns (v : value)
  | HookReturnsPromise (r : Settled unit).

Definition Hook : Type := AppState → Bag → HookResult * AppState * Bag.

(** [router.post = () => {};] *)
Definition default_post : Hook := λ s params, (HookReturns VUndefined, s, params).

(** The TypeError of [v.catch(...)] on a value without a [catch] method
    (the message is the engine's). *)
Definition no_catch (v : value) : Error :=
  match v with
  | VUndefined | VNull =>
      MkError "TypeError"
        ("Cannot read property 'catch' of " +:+ to_string v)
  | _ => MkError "TypeError" "router.post(...).catch is not a function"
  end.

(** Where a navigation stands.  [Executing frames]: [router.exec] is
    running, [frames] being the steps left in each nested [mapSeries],
    innermost first, and [Executing []] its promise fulfilled with the bag;
    [Posted]: the first [tap] is through and the second is due;
    [Done r]: the promise [navigate] returned has settled. *)
Inductive Phase :=
  | Executing (frames : list (list Step))
  | Posted
  | Done (r : Settled unit).

Record Task := MkTask {
  task_handle : Handle;
  task_params : Bag;
  task_phase : Phase;
}.

Record World := MkWorld {
  currentHandle : Handle;
  state : State;
  location_hash : string;
  rootState : AppState;
  tasks : list Task;
}.

Definition init (hash : string) (s : AppState) : World :=
  {| currentHandle := {| handle_id := 0; handle_path := "" |};
     state := {| progress := false; state_path := ""; state_params := ∅ |};
     location_hash := hash; rootState := s; tasks := [] |}.

(** [s.replace(/^[#\/]+/, '')] *)
Fixpoint strip_leading (s : string) : string :=
  match s with
  | String c s' =>
      if Ascii.eqb c "#"%char || Ascii.eqb c "/"%char
      then strip_leading s' else s
  | "" => ""
  end.

Section Controller.

Variable H : Heap.
Variable router : RouterId.
Variable store : Store.
Variable post : Hook.

(** The synchronous part of [this.exec(store, path, params)]: the match,
    then either the steps to run or the rejection, which [catch] turns into
    [params.error]. *)
Definition start_exec (this : RouterId) (path : string) (params : Bag)
    : Bag * list (list Step) :=
  let params := match_ H this path params in
  if truthy (get params "route")
  then (params, [steps_of H (get params "route")])
  else (<["error" := VError NotFound]> params, []).

(** A step settles: the series goes on, or [catch] records the error and
    this [exec] is over. *)
Definition settle_step (r : Settled StepValue * AppState * Bag)
    (more : list Step) (rest : list (list Step)) : St * list (list Step) :=
  let '(r, s, params) := r in
  match r with
  | Fulfilled _ => ((s, params), more :: rest)
  | Rejected e => ((s, <["error" := VError e]> params), rest)
  end.

(** One transition of a running [exec]. *)
Definition pipeline_step (σ : St) (frames : list (list Step))
    : St * list (list Step) :=
  match frames with
  | [] => (σ, [])
  | [] :: rest => (σ, rest)
  | (step :: more) :: rest =>
      let '(s, params) := σ in
      match step with
      | StepString action => settle_step (dispatch store action s params) more rest
      | StepFunction f => settle_step (f s params) more rest
      | StepDelegate child =>
          let '(path, params) := take_rest params in
          let '(params, frames') := start_exec child path params in
          ((s, params), frames' ++ more :: rest)
      | StepObject o => ((s, o ∪ params), more :: rest)
      end
  end.

(** [n] transitions of a running [exec], with nothing running in between. *)
Fixpoint pipeline_run (n : nat) (σ : St) (frames : list (list Step))
    : St * list (list Step) :=
  match n with
  | 0 => (σ, frames)
  | S n' =>
      let '(σ', frames') := pipeline_step σ frames in
      pipeline_run n' σ' frames'
  end.

Definition set_task (i : nat) (t : Task) (s : AppState) (w : World) : World :=
  {| currentHandle := currentHandle w; state := state w;
     location_hash := location_hash w; rootState := s;
     tasks := <[i := t]> (tasks w) |}.

(** [actions.navigate(context, path)] up to the point where it returns. *)
Definition navigate (path : string) (w : World) : World :=
  if decide (handle_path (currentHandle w) = path) then w
  else
    let handle := {| handle_id := S (length (tasks w)); handle_path := path |} in
    let '(params, frames) := start_exec router path ∅ in
    {| currentHandle := handle;
       state := navigating (state w);
       location_hash := location_hash w;
       rootState := rootState w;
       tasks := tasks w ++ [ {| task_handle := handle; task_params := params;
                                task_phase := Executing frames |} ] |}.

(** The first [tap]: [router.post(params).catch(...)]. *)
Definition run_post (t : Task) (w : World) : Task * AppState :=
  let '(r, s, params) := post (rootState w) (task_params t) in
  match r with
  | HookThrows e =>
      ({| task_handle := task_handle t; task_params := params;
          task_phase := Done (Rejected e) |}, s)
  | HookReturns v =>
      ({| task_handle := task_handle t; task_params := params;
          task_phase := Done (Rejected (no_catch v)) |}, s)
  | HookReturnsPromise (Fulfilled _) =>
      ({| task_handle := task_handle t; task_params := params;
          task_phase := Posted |}, s)
  | HookReturnsPromise (Rejected e) =>
      ({| task_handle := task_handle t;
          task_params := <["error" := VError e]> params;
          task_phase := Posted |}, s)
  end.

(** The second [tap]: the check against [currentHandle], and the commit. *)
Definition finish (i : nat) (t : Task) (w : World) : World :=
  let t' := {| task_handle := task_handle t; task_params := task_params t;
               task_phase := Done (Fulfilled tt) |} in
  if decide (handle_id (currentHandle w) = handle_id (task_handle t))
  then
    let path := handle_path (task_handle t) in
    {| currentHandle := currentHandle w;
       state := navigated (state w) path (task_params t);
       location_hash := "#" +:+ path;
       rootState := rootState w;
       tasks := <[i := t']> (tasks w) |}
  else set_task i t' (rootState w) w.

(** The next callback of navigation [i]. *)
Definition advance (i : nat) (w : World) : World :=
  match tasks w !! i with
  | None => w
  | Some t =>
      match task_phase t with
      | Executing [] => let '(t', s) := run_post t w in set_task i t' s w
      | Executing frames =>
          let '((s, params), frames') :=
            pipeline_step (rootState w, task_params t) frames in
          set_task i {| task_handle := task_handle t; task_params := params;
                        task_phase := Executing frames' |} s w
      | Posted => finish i t w
      | Done _ => w
      end
  end.

(** [router.update]: the path read off [location.hash]. *)
Definition update (w : World) : World :=
  navigate ("/" +:+ strip_leading (location_hash w)) w.

Inductive Event :=
  | Navigate (path : string)
  | Hashchange (hash : string)
  | Advance (i : nat).

Definition step (ev : Event) (w : World) : World :=
  match ev with
  | Navigate path => navigate path w
  | Hashchange hash =>
      update {| currentHandle := currentHandle w; state := state w;
                location_hash := hash; rootState := rootState w;
                tasks := tasks w |}
  | Advance i => advance i w
  end.

Definition run (evs : list Event) (w : World) : World :=
  foldl (λ w ev, step ev w) w evs.

End Controller.

(** ** The earlier revision of [child]

    Before [normalizePath], [child] took the trailing slashes off with a
    loop:
<<
    let idx = path.length;
    while (path[--idx] === '/') {};
    path = path.slice(0, idx + 1);
>>
    [strip_loop path idx] is the loop entered with [idx], and the slice
    after it: at [idx = 0] the index becomes -1, [path[-1]] is [undefined]
    and the slice is empty. *)
Fixpoint strip_loop (path : string) (idx : nat) : string :=
  match idx with
  | 0 => ""
  | S idx' =>
      match String.get idx' path with
      | Some c =>
          if Ascii.eqb c "/"%char then strip_loop path idx'
          else String.substring 0 (S idx') path
      | None => String.substring 0 (S idx') path
      end
  end.

Definition strip_trailing (path : string) : string :=
  strip_loop path (String.length path).

(** The earlier [child]: the base path of [this] is taken as it is, the
    child is given its fields, and the route is added with the delegating
    closure as its last step.  ([add] returned the router then, and routers
    had no [baseRoute].) *)
Definition child_old (pathToRegexp : string → RegExp) (H : Heap)
    (this : RouterId) (path : string) (steps : list Step) : Heap * RouterId :=
  let path := strip_trailing path in
  let child_basePath := from_option basePath "" (H !! this) +:+ path in
  let path := path +:+ "/*" in
  let child := length H in
  let H := H ++ [new_Router] in
  let this_storeModule := from_option storeModule false (H !! this) in
  let H :=
    alter (λ C, {| basePath := child_basePath; baseRoute := baseRoute C;
                   parentRouter := Some this; storeModule := this_storeModule;
                   routes := routes C |}) child H in
  let '(H, _) := add pathToRegexp H this path (steps ++ [StepDelegate child]) in
  (H, child).

(** The earlier [navigate] ran the hook and caught its failure this way:
<<
    .tap((params) => { return router.post(params); })
    .catch((error) => { params.error = error; })
>>
    A value that is no promise passes through [tap]; a failure of the hook
    reaches the [catch], whose handler refers to a [params] that is not in
    scope there and throws. *)
Definition params_not_defined : Error :=
  MkError "ReferenceError" "params is not defined".

Section OldController.

Variable H : Heap.
Variable store : Store.
Variable post : Hook.

Definition run_post_old (t : Task) (w : World) : Task * AppState :=
  let '(r, s, params) := post (rootState w) (task_params t) in
  match r with
  | HookReturns _ | HookReturnsPromise (Fulfilled _) =>
      ({| task_handle := task_handle t; task_params := params;
          task_phase := Posted |}, s)
  | HookThrows _ | HookReturnsPromise (Rejected _) =>
      ({| task_handle := task_handle t; task_params := params;
          task_phase := Done (Rejected params_not_defined) |}, s)
  end.

(** The next callback of navigation [i] in the earlier revision: only the
    hook's [tap] differs. *)
Definition advance_old (i : nat) (w : World) : World :=
  match tasks w !! i with
  | None => w
  | Some t =>
      match task_phase t with
      | Executing [] => let '(t', s) := run_post_old t w in set_task i t' s w
      | _ => advance H store post i w
      end
  end.

End OldController.

(** [router.start]: [install] registers the listener, which the events
    [Hashchange] stand for, and [update] runs once. *)
Definition start (H : Heap) (router : RouterId) (w : World) : World :=
  update H router w.

(** The path [router.update] hands to [navigate]. *)
Definition update_path (hash : string) : string := "/" +:+ strip_leading hash.

(** ** Vocabulary of the statements *)

(** The route's pattern does not match the path. *)
Definition no_match (path : string) (R : Route) : Prop :=
  re_exec (route_re R) path = None.

Definition is_advance (ev : Event) : Prop :=
  match ev with
  | Advance _ => True
  | _ => False
  end.

(** Handles are allocated in order: the navigation at position [i] holds
    the handle with address [S i] (address 0 is the initial handle), and the
    current handle is one of those allocated. *)
Definition handles_in_order (w : World) : Prop :=
  handle_id (currentHandle w) ≤ length (tasks w) ∧
  ∀ i t, tasks w !! i = Some t → handle_id (task_handle t) = S i.

(** What [catch] makes of a settled series. *)
Definition caught {A} (r : Settled A) (st : St) : St :=
  match r with
  | Fulfilled _ => st
  | Rejected e => (st.1, <["error" := VError e]> st.2)
  end.

(** Every delegating step points to a router allocated after the one it
    sits in, as [child] arranges. *)
Definition delegates_upward (H : Heap) : Prop :=
  ∀ r R i rt c,
    H !! r = Some R → routes R !! i = Some rt →
    StepDelegate c ∈ route_steps rt → r < c < length H.

(** No navigation has come to its second [tap]. *)
Definition none_posted (w : World) : Prop :=
  ∀ i t, tasks w !! i = Some t →
    task_phase t ≠ Posted ∧ task_phase t ≠ Done (Fulfilled tt).

(** A step list as a caller writes it: strings, functions and objects. *)
Definition no_delegation (steps : list Step) : Prop :=
  ∀ c, StepDelegate c ∉ steps.

(** The heaps that [new Router()], [add] and [child] build. *)
Inductive Built (pathToRegexp : string → RegExp) : Heap → Prop :=
  | Built_nil : Built pathToRegexp []
  | Built_new H : Built pathToRegexp H → Built pathToRegexp (H ++ [new_Router])
  | Built_add H this path steps :
      Built pathToRegexp H → is_Some (H !! this) → no_delegation steps →
      Built pathToRegexp (add pathToRegexp H this path steps).1
  | Built_child H this path steps :
      Built pathToRegexp H → is_Some (H !! this) → no_delegation steps →
      Built pathToRegexp (child pathToRegexp H this path steps).1.

(** The current handle is the one of the navigation started last, or the
    initial handle when none was started. *)
Definition latest_is_current (w : World) : Prop :=
  match last (tasks w) with
  | Some t => task_handle t = currentHandle w
  | None => currentHandle w = {| handle_id := 0; handle_path := "" |}
  end.

(** What holds of the module after any sequence of events. *)
Definition settled_world (w : World) : Prop :=
  handles_in_order w ∧ latest_is_current w ∧
  (progress (state w) = true ∨
   state_path (state w) = handle_path (currentHandle w)).

(** The string does not end with a slash. *)
Definition no_trailing_slash (s : string) : Prop := ∀ s', s ≠ s' +:+ "/".

(** The string does not start with [#] or [/]. *)
Definition no_leading_mark (s : string) : Prop :=
  match s with
  | String c _ => c ≠ "#"%char ∧ c ≠ "/"%char
  | "" => True
  end.

End Router.

(** The numeric names among a pattern's keys, in key order. *)
Fixpoint numeric_names (keys : list Key) : list nat :=
  match keys with
  | [] => []
  | key :: keys' =>
      match name key with
      | NameNum n => n :: numeric_names keys'
      | NameStr _ => numeric_names keys'
      end
  end.

(** One more than the largest numeric name, and 0 when there is none. *)
Definition positional_count (keys : list Key) : Z :=
  match numeric_names keys with
  | [] => 0
  | ns => 1 + Z.of_nat (max_list ns)
  end.

Definition no_key_named (s : string) (keys : list Key) : Prop :=
  Forall (λ key, name key ≠ NameStr s) keys.

(** path-to-regexp numbers the unnamed captures 0, 1, 2, ... as it meets
    them, so the numeric names of a compiled pattern come in ascending
    order. *)
Definition ascending (ns : list nat) : Prop := StronglySorted le ns.

(** ** A fragment of path-to-regexp, for the examples

    Patterns made of [/literal] and [/:name] segments, with an optional
    final [/*]; they are compiled as path-to-regexp compiles them: a named
    segment takes one non-empty run without a slash, the wildcard takes the
    rest of the path and is the unnamed capture 0, and a pattern without a
    wildcard admits one trailing slash.  (Letter case is not folded.) *)

Inductive Segment :=
  | SegLit (s : string)
  | SegParam (s : string)
  | SegWild.

(** [s] up to its first slash, and what follows from that slash on. *)
Fixpoint split_slash (s : string) : string * string :=
  match s with
  | "" => ("", "")
  | String c s' =>
      if Ascii.eqb c "/"%char then ("", s)
      else let '(seg, rest) := split_slash s' in (String c seg, rest)
  end.

Fixpoint match_segments (segs : list Segment) (p : string)
    : option (list (option string)) :=
  match segs with
  | [] => if String.eqb p "" || String.eqb p "/" then Some [] else None
  | seg :: segs' =>
      match p with
      | String "/" p' =>
          match seg with
          | SegWild => Some [Some p']
          | SegLit s =>
              let '(x, rest) := split_slash p' in
              if String.eqb x s then match_segments segs' rest else None
          | SegParam _ =>
              let '(x, rest) := split_slash p' in
              if String.eqb x "" then None
              else cons (Some x) <$> match_segments segs' rest
          end
      | _ => None
      end
  end.

Definition segment_keys (segs : list Segment) : list Key :=
  omap (λ seg, match seg with
               | SegLit _ => None
               | SegParam s => Some (MkKey (NameStr s))
               | SegWild => Some (MkKey (NameNum 0))
               end) segs.

Definition parse_segment (s : string) : Segment :=
  match s with
  | "*" => SegWild
  | String ":" s' => SegParam s'
  | _ => SegLit s
  end.

(** The segments of a pattern; [n] bounds their number. *)
Fixpoint parse_pattern (n : nat) (path : string) : list Segment :=
  match n, path with
  | S n', String "/" path' =>
      let '(x, rest) := split_slash path' in
      parse_segment x :: parse_pattern n' rest
  | _, _ => []
  end.

Definition compile_pattern (path : string) : RegExp :=
  let segs := parse_pattern (String.length path) path in
  {| re_exec := λ p, cons (Some p) <$> match_segments segs p;
     re_keys := segment_keys segs |}.

(** ** Example routers (the store state is a counter of the steps run) *)

Definition count_step : @StepFn nat := λ n params, (Fulfilled None, S n, params).

Definition failing_step (e : Error) : @StepFn nat :=
  λ n params, (Rejected e, S n, params).

(** A function step that resolves to an object of defaults. *)
Definition member_step : @StepFn nat :=
  λ n params, (Fulfilled (Some {["role" := VStr "member"]}), n, params).

Definition example_store : @Store nat :=
  {| dispatch := λ action,
       if String.eqb action "load" then count_step
       else failing_step (MkError "Error" ("[vuex] unknown action type: " +:+ action)) |}.

Definition Boom : Error := MkError "Error" "boom".

(** One router: [/users/:id] before [/users/*]. *)
Definition users_by_id : @Route nat :=
  new_Route compile_pattern "" "/users/:id"
    [StepObject {["section" := VStr "users"]}; StepFunction count_step].

Definition users_any : @Route nat :=
  new_Route compile_pattern "" "/users/*" [StepFunction count_step].

Definition users_heap : list (@Router nat) :=
  let H := [new_Router] in
  let H := fst (add compile_pattern H 0 "/users/:id" (route_steps users_by_id)) in
  fst (add compile_pattern H 0 "/users/*" (route_steps users_any)).


(** A route whose third step fails. *)
Definition report_steps : list (@Step nat) :=
  [StepObject {["kind" := VStr "report"]};
   StepString "load";
   StepFunction (failing_step Boom);
   StepFunction count_step;
   StepObject {["late" := VBool true]}].

Definition report_route : @Route nat :=
  new_Route compile_pattern "" "/reports/:year" report_steps.

Definition failing_heap : list (@Router nat) :=
  fst (add compile_pattern [new_Router] 0 "/reports/:year" report_steps).

(** A capture named [length]. *)
Definition length_heap : list (@Router nat) :=
  fst (add compile_pattern [new_Router] 0 "/:length" []).

(** An object step and a function step that supply defaults for [id] and
    [role]. *)
Definition defaults_heap : list (@Router nat) :=
  fst (add compile_pattern [new_Router] 0 "/users/:id"
         [StepObject {["id" := VStr "anonymous"]}; StepFunction member_step]).

(** The scenario of nested routers: [/users/:id/*] delegates to a child
    that knows [/posts/:postId]. *)
Definition nested_heap : list (@Router nat) :=
  let '(H, users) := child compile_pattern [new_Router] 0 "/users/:id/" [] in
  fst (add compile_pattern H users "/posts/:postId" [StepFunction count_step]).

(** A hook that returns a promise, fulfilled. *)
Definition promise_post : @Hook nat :=
  λ n params, (HookReturnsPromise (Fulfilled tt), n, params).

(** A hook that throws. *)
Definition throwing_post : @Hook nat :=
  λ n params, (HookThrows Boom, n, params).

(** * Properties *)

Section Theory.
Context {AppState : Type}.
Local Abbreviation Route := (@Route AppState).
Local Abbreviation Router := (@Router AppState).
Local Abbreviation Heap := (list Router).
Local Abbreviation Step := (@Step AppState).
Local Abbreviation Store := (@Store AppState).
Local Abbreviation Promise := (@Promise AppState).
Local Abbreviation St := (@St AppState).
Local Abbreviation World := (@World AppState).
Local Abbreviation Task := (@Task AppState).
Local Abbreviation Hook := (@Hook AppState).

Implicit Types (H : Heap) (R : Route) (params b : Bag) (path : string).

(** *** Router.match *)

Lemma find_route_skip (pre rs : list Route) i path params :
  Forall (no_match path) pre →
  find_route (pre ++ rs) i path params = find_route rs (i + length pre) path params.
Proof.
  intros Hpre. revert i. induction Hpre as [|R pre HR _ IH]; intros i; simpl.
  - by rewrite Nat.add_0_r.
  - unfold no_match in HR. rewrite HR, IH. f_equal. lia.
Qed.

(** [find] stops at the first route whose pattern matches, and only that
    route's callback writes to the bag. *)
Lemma find_route_found (rs : list Route) i path params j b' :
  find_route rs i path params = (Some j, b') →
  ∃ pre R post m,
    rs = pre ++ R :: post ∧ j = i + length pre ∧
    Forall (no_match path) pre ∧ re_exec (route_re R) path = Some m ∧
    b' = bind_keys m (re_keys (route_re R)) 0 (<["length" := VNum 0]> params).
Proof.
  revert i. induction rs as [|R rs IH]; intros i; simpl; [done|].
  destruct (re_exec (route_re R) path) as [m|] eqn:Hm.
  - intros [= <- <-]. exists [], R, rs, m. simpl. split_and!; auto with lia.
  - intros (pre & R' & post & m & -> & -> & Hpre & Hm' & ->)%IH.
    exists (R :: pre), R', post, m. simpl. split_and!; auto with lia.
Qed.

Lemma find_route_none (rs : list Route) i path params :
  Forall (no_match path) rs → find_route rs i path params = (None, params).
Proof.
  intros Hrs. revert i. induction Hrs as [|R rs HR _ IH]; intros i; simpl; [done|].
  unfold no_match in HR. by rewrite HR.
Qed.

(** The two outcomes of [match]. *)
Lemma match_cases H this path params :
  (∃ pre R post m,
      routes_of H this = pre ++ R :: post ∧
      Forall (no_match path) pre ∧ re_exec (route_re R) path = Some m ∧
      match_ H this path params =
        <["route" := VRoute this (length pre)]>
          (bind_keys m (re_keys (route_re R)) 0
             (<["length" := VNum 0]> (<["router" := VRouter this]> params))))
  ∨ (Forall (no_match path) (routes_of H this) ∧
     match_ H this path params =
       <["route" := VUndefined]> (<["router" := VRouter this]> params)).
Proof.
  unfold match_.
  destruct (find_route _ _ _ _) as [[j|] b'] eqn:Hf.
  - left. apply find_route_found in Hf as (pre & R & post & m & ? & -> & ? & ? & ->).
    exists pre, R, post, m. done.
  - right.
    assert (Forall (no_match path) (routes_of H this)) as Hall.
    { clear -Hf. revert Hf. generalize 0. induction (routes_of H this) as [|R rs IH];
        intros i; simpl; [done|].
      destruct (re_exec (route_re R) path) eqn:Hm; [done|].
      intros ?%IH. by constructor. }
    split; [done|]. rewrite find_route_none in Hf by done. by injection Hf as <-.
Qed.


Lemma bind_keys_other m keys i params k :
  k ≠ "length" →
  Forall (λ key, prop_of (name key) ≠ k) keys →
  bind_keys m keys i params !! k = params !! k.
Proof.
  intros Hk Hkeys. revert i params.
  induction Hkeys as [|[kn] keys Hkn _ IH]; intros i params; simpl; [done|].
  rewrite IH. destruct kn as [s|n]; simpl in *.
  - by rewrite lookup_insert_ne.
  - by rewrite !lookup_insert_ne.
Qed.



(** Of two routes that both match, the later one is never the one [match]
    returns. *)
Lemma match_not_later_route H this path params i j R1 R2 m1 m2 :
  routes_of H this !! i = Some R1 →
  routes_of H this !! j = Some R2 →
  i < j →
  re_exec (route_re R1) path = Some m1 →
  re_exec (route_re R2) path = Some m2 →
  get (match_ H this path params) "route" ≠ VRoute this j.
Proof.
  intros Hi Hj Hij Hm1 Hm2.
  destruct (match_cases H this path params)
    as [(pre & R & post & m & Hrs & Hpre & Hm & ->)|[Hall ->]].
  - assert (length pre ≤ i) as Hle.
    { destruct (decide (length pre ≤ i)) as [|Hn]; [done|].
      rewrite Hrs, lookup_app_l in Hi by lia.
      rewrite Forall_lookup in Hpre. specialize (Hpre _ _ Hi).
      unfold no_match in Hpre. congruence. }
    unfold get. rewrite lookup_insert_eq. simpl. intros [= ?]. lia.
  - rewrite Forall_lookup in Hall. specialize (Hall _ _ Hi).
    unfold no_match in Hall. congruence.
Qed.


(** [length] after the keys are bound: the last numeric name plus one. *)
Lemma bind_keys_length m keys i params :
  no_key_named "length" keys →
  bind_keys m keys i params !! "length" =
    match last (numeric_names keys) with
    | Some n => Some (VNum (Z.of_nat n + 1))
    | None => params !! "length"
    end.
Proof.
  intros Hk. revert i params.
  induction Hk as [|[[s|n]] keys Hs _ IH]; intros i params; simpl; [done|..].
  - rewrite IH. destruct (last _); [done|].
    apply lookup_insert_ne. simpl in *. intros ->. by apply Hs.
  - rewrite IH, last_cons. destruct (last _); [done|].
    by rewrite lookup_insert_eq.
Qed.

Lemma ascending_last_max ns n :
  ascending ns → last ns = Some n → max_list ns = n.
Proof.
  intros Hs. revert n. induction Hs as [|a ns _ IH Ha]; intros n; [done|].
  rewrite last_cons. simpl. destruct (last ns) as [n'|] eqn:Hl.
  - intros [= ->]. rewrite (IH n) by done.
    assert (n ∈ ns) as Hn.
    { apply last_Some in Hl as [l' ->]. set_solver. }
    rewrite Forall_forall in Ha. specialize (Ha _ Hn). lia.
  - intros [= ->]. apply last_None in Hl as ->. simpl. lia.
Qed.

(** Claim C6, amended.  After a successful match on a pattern that has no
    capture named [length] and whose numeric key names are in ascending
    order, the bag's [length] is one more than the largest numeric key
    name, and 0 when the pattern has none. *)
Theorem match_length_counts_positionals H this path params i R :
  get (match_ H this path params) "route" = VRoute this i →
  routes_of H this !! i = Some R →
  no_key_named "length" (re_keys (route_re R)) →
  ascending (numeric_names (re_keys (route_re R))) →
  match_ H this path params !! "length"
    = Some (VNum (positional_count (re_keys (route_re R)))).
Proof.
  intros Hroute HR Hnamed Hasc.
  destruct (match_cases H this path params)
    as [(pre & R' & post & m & Hrs & Hpre & Hm & Heq)|[Hall Heq]];
    rewrite Heq in Hroute |- *; unfold get in Hroute;
    rewrite lookup_insert_eq in Hroute; simpl in Hroute; [|done].
  injection Hroute as <-.
  rewrite Hrs, list_lookup_middle in HR by done. injection HR as ->.
  rewrite lookup_insert_ne by done.
  rewrite bind_keys_length by done. unfold positional_count.
  destruct (last _) as [n|] eqn:Hl.
  - rewrite <- (ascending_last_max _ _ Hasc Hl).
    destruct (numeric_names _); [done|]. do 2 f_equal. lia.
  - apply last_None in Hl as ->. by rewrite lookup_insert_eq.
Qed.

(** *** Promise.mapSeries *)

Lemma mapSeries_inv_cons {A B} (f : A → Promise B) x l st vs st' :
  mapSeries f (x :: l) st = Some (Fulfilled vs, st') →
  ∃ v vs' st1, f x st = Some (Fulfilled v, st1) ∧
               mapSeries f l st1 = Some (Fulfilled vs', st') ∧ vs = v :: vs'.
Proof.
  simpl. unfold then_ at 1.
  destruct (f x st) as [[[v|e] st1]|] eqn:Hx; [|done..].
  unfold then_ at 1.
  destruct (mapSeries f l st1) as [[[vs'|e] st2]|] eqn:Hl; [|done..].
  unfold resolve. intros ?; simplify_eq. by exists v, vs', st1.
Qed.

Lemma mapSeries_rejected_at {A B} (f : A → Promise B) pre x post st vs st1 e st2 :
  mapSeries f pre st = Some (Fulfilled vs, st1) →
  f x st1 = Some (Rejected e, st2) →
  mapSeries f (pre ++ x :: post) st = Some (Rejected e, st2).
Proof.
  revert st vs. induction pre as [|y pre IH]; intros st vs.
  - intros [= <- <-] Hx. simpl. unfold then_. by rewrite Hx.
  - intros (v & vs' & st' & Hy & Hpre & ->)%mapSeries_inv_cons Hx.
    simpl. unfold then_ at 1. rewrite Hy.
    unfold then_ at 1. by rewrite (IH _ _ Hpre Hx).
Qed.

Lemma mapSeries_fulfilled_app {A B} (f : A → Promise B) l1 l2 st vs1 st1 vs2 st2 :
  mapSeries f l1 st = Some (Fulfilled vs1, st1) →
  mapSeries f l2 st1 = Some (Fulfilled vs2, st2) →
  mapSeries f (l1 ++ l2) st = Some (Fulfilled (vs1 ++ vs2), st2).
Proof.
  revert st vs1. induction l1 as [|y l1 IH]; intros st vs1.
  - by intros [= <- <-] ?.
  - intros (v & vs' & st' & Hy & Hl1 & ->)%mapSeries_inv_cons Hl2.
    simpl. unfold then_ at 1. rewrite Hy.
    unfold then_ at 1. by rewrite (IH _ _ Hl1 Hl2).
Qed.

(** *** Router.exec *)

Lemma exec_unfold fuel H (ctx : Store) this path s params :
  exec (S fuel) H ctx this path (s, params) =
    let params := match_ H this path params in
    return_params
      (catch_
         (if truthy (get params "route")
          then mapSeries (run_step (exec fuel H ctx) ctx)
                 (steps_of H (get params "route"))
          else reject NotFound)
         set_error)
      (s, params).
Proof. done. Qed.

(** The promise of [exec] is never rejected: it is fulfilled with the
    bag. *)
Lemma exec_settles_fulfilled fuel H (ctx : Store) this path st r st' :
  exec fuel H ctx this path st = Some (r, st') → r = Fulfilled (snd st').
Proof.
  destruct fuel as [|fuel]; [done|]. destruct st as [s params].
  rewrite exec_unfold. cbv zeta.
  unfold return_params, catch_, then_, set_error, resolve.
  destruct (if truthy _ then _ else _) as [[[vs|e] [s1 b1]]|]; [..|done];
    by intros [= <- <-].
Qed.

Lemma exec_matched fuel H (ctx : Store) this path s params i R :
  get (match_ H this path params) "route" = VRoute this i →
  routes_of H this !! i = Some R →
  exec (S fuel) H ctx this path (s, params) =
    return_params
      (catch_ (mapSeries (run_step (exec fuel H ctx) ctx) (route_steps R))
         set_error)
      (s, match_ H this path params).
Proof.
  intros Hroute HR. rewrite exec_unfold. cbv zeta. rewrite Hroute. simpl.
  by rewrite HR.
Qed.

(** An object step writes every one of its keys into the bag, bound or
    not ([Object.assign]); what a function step resolves to is handed to
    [mapSeries] and the bag stays as the function left it. *)
Lemma object_step_assigns (exec' : RouterId → string → Promise Bag)
    (ctx : Store) o s params :
  run_step exec' ctx (StepObject o) (s, params)
    = Some (Fulfilled None, (s, o ∪ params)) ∧
  ∀ k v, o !! k = Some v → (o ∪ params) !! k = Some v.
Proof.
  split; [done|]. intros k v Hk. by apply lookup_union_Some_l.
Qed.

Lemma function_step_value_unused (exec' : RouterId → string → Promise Bag)
    (ctx : Store) f s params v s' params' :
  f s params = (Fulfilled v, s', params') →
  run_step exec' ctx (StepFunction f) (s, params)
    = Some (Fulfilled v, (s', params')).
Proof. intros Hf. simpl. by rewrite Hf. Qed.

(** Claim C4.  The matched route's steps are [pre ++ step :: post]; the
    steps of [pre] run in order and are fulfilled, and [step] is rejected
    with [e].  Then the promise of [exec] is fulfilled with the bag, whose
    [error] is [e], and the store and the bag are as [step] left them:
    the steps of [post] have not run. *)
Theorem exec_stops_at_first_failure fuel H (ctx : Store) this path s params
    i R pre step post vs s1 b1 e s2 b2 :
  get (match_ H this path params) "route" = VRoute this i →
  routes_of H this !! i = Some R →
  route_steps R = pre ++ step :: post →
  mapSeries (run_step (exec fuel H ctx) ctx) pre (s, match_ H this path params)
    = Some (Fulfilled vs, (s1, b1)) →
  run_step (exec fuel H ctx) ctx step (s1, b1) = Some (Rejected e, (s2, b2)) →
  exec (S fuel) H ctx this path (s, params) =
    Some (Fulfilled (<["error" := VError e]> b2),
          (s2, <["error" := VError e]> b2)).
Proof.
  intros Hroute HR Hsteps Hpre Hstep.
  rewrite (exec_matched _ _ _ _ _ _ _ _ _ Hroute HR), Hsteps.
  unfold return_params, catch_, then_ at 1.
  by rewrite (mapSeries_rejected_at _ _ _ _ _ _ _ _ _ Hpre Hstep).
Qed.

(** Claim C10.  When a step fails, [exec] is fulfilled with the bag it was
    working on, holding [error] and, under every other key, what the bag
    held when the step failed: the captures of the match and what the
    earlier steps and the failing step itself put there are not undone. *)
Theorem exec_failure_keeps_mutations fuel H (ctx : Store) this path s params
    i R pre step post vs s1 b1 e s2 b2 :
  get (match_ H this path params) "route" = VRoute this i →
  routes_of H this !! i = Some R →
  route_steps R = pre ++ step :: post →
  mapSeries (run_step (exec fuel H ctx) ctx) pre (s, match_ H this path params)
    = Some (Fulfilled vs, (s1, b1)) →
  run_step (exec fuel H ctx) ctx step (s1, b1) = Some (Rejected e, (s2, b2)) →
  ∃ b', exec (S fuel) H ctx this path (s, params) = Some (Fulfilled b', (s2, b')) ∧
        b' !! "error" = Some (VError e) ∧
        ∀ k, k ≠ "error" → b' !! k = b2 !! k.
Proof.
  intros Hroute HR Hsteps Hpre Hstep.
  exists (<["error" := VError e]> b2). split_and!.
  - rewrite (exec_matched _ _ _ _ _ _ _ _ _ Hroute HR), Hsteps.
    unfold return_params, catch_, then_ at 1.
    by rewrite (mapSeries_rejected_at _ _ _ _ _ _ _ _ _ Hpre Hstep).
  - apply lookup_insert_eq.
  - intros k Hk. by apply lookup_insert_ne.
Qed.

Lemma mapSeries_snoc {A B} (f : A → Promise B) pre x st vs st1 :
  mapSeries f pre st = Some (Fulfilled vs, st1) →
  mapSeries f (pre ++ [x]) st = then_ (f x) (λ v, resolve (vs ++ [v])) st1.
Proof.
  revert st vs. induction pre as [|y pre IH]; intros st vs.
  - intros [= <- <-]. simpl. unfold then_. by destruct (f x st) as [[[]]|].
  - intros (v & vs' & st' & Hy & Hpre & ->)%mapSeries_inv_cons.
    simpl. unfold then_ at 1. rewrite Hy.
    unfold then_ at 1. rewrite (IH _ _ Hpre).
    unfold then_, resolve. by destruct (f x st1) as [[[]]|].
Qed.

(** *** Router.child *)

(** The decimal name of a number starts with a digit. *)
Lemma pretty_N_go_head x s :
  (0 < x)%N → ∃ c t, pretty_N_go x s = String c t ∧ is_digit c = true.
Proof.
  revert s. induction (N.lt_wf_0 x) as [x _ IH]; intros s Hx.
  rewrite pretty_N_go_step by done.
  destruct (decide (x `div` 10 = 0)%N) as [->|Hd].
  - rewrite pretty_N_go_0. eexists _, _. split; [reflexivity|].
    unfold pretty_N_char. by repeat case_match.
  - apply IH; [by apply N.div_lt | by apply N.neq_0_lt_0].
Qed.

Lemma pretty_nat_head (n : nat) :
  ∃ c t, pretty n = String c t ∧ is_digit c = true.
Proof.
  unfold pretty, pretty_nat, pretty, pretty_N.
  case_decide.
  - eexists _, _. split; reflexivity.
  - apply pretty_N_go_head. lia.
Qed.

Lemma pretty_nat_ne (n : nat) c s : is_digit c = false → pretty n ≠ String c s.
Proof.
  destruct (pretty_nat_head n) as (c' & t & -> & Hc). intros ? [= -> _]. congruence.
Qed.

Lemma bind_keys_snoc m keys key i params :
  bind_keys m (keys ++ [key]) i params =
    bind_keys m [key] (i + length keys) (bind_keys m keys i params).
Proof.
  revert i params. induction keys as [|k keys IH]; intros i params; simpl.
  - by rewrite Nat.add_0_r.
  - rewrite IH. by replace (S i + length keys) with (i + S (length keys)) by lia.
Qed.

(** After a match on a pattern whose last key is the unnamed capture [n],
    the bag holds that capture under [n] and [n + 1] under [length]. *)
Lemma match_last_positional H this path params pre R post m keys n :
  routes_of H this = pre ++ R :: post →
  Forall (no_match path) pre →
  re_exec (route_re R) path = Some m →
  re_keys (route_re R) = keys ++ [MkKey (NameNum n)] →
  let b := match_ H this path params in
  get b "route" = VRoute this (length pre) ∧
  b !! "length" = Some (VNum (Z.of_nat n + 1)) ∧
  b !! pretty n = Some (match_at m (length keys + 1)).
Proof.
  intros Hrs Hpre Hm Hkeys. simpl.
  unfold match_. rewrite Hrs, find_route_skip by done. simpl.
  rewrite Hm, Hkeys, bind_keys_snoc. simpl. unfold get.
  rewrite lookup_insert_eq. split; [done|].
  rewrite !(lookup_insert_ne _ "route") by (try apply not_eq_sym; by (done || apply pretty_nat_ne)).
  rewrite lookup_insert_eq. split; [done|].
  rewrite lookup_insert_ne by (apply not_eq_sym; by apply pretty_nat_ne).
  by rewrite lookup_insert_eq.
Qed.

Lemma take_rest_positional params (n : nat) rest :
  params !! "length" = Some (VNum (Z.of_nat n + 1)) →
  params !! pretty n = Some (VStr rest) →
  take_rest params =
    ("/" +:+ rest, delete (pretty n) (<["length" := VNum (Z.of_nat n)]> params)).
Proof.
  intros Hlen Hrest. unfold take_rest, get. rewrite Hlen. simpl.
  replace (Z.of_nat n + 1 - 1)%Z with (Z.of_nat n) by lia.
  assert (pretty (Z.of_nat n) = pretty n) as ->.
  { unfold pretty at 1, pretty_Z. destruct n; [done|]. simpl.
    unfold pretty at 2, pretty_nat. unfold pretty at 1, pretty_positive.
    by f_equal. }
  rewrite lookup_insert_ne by (apply not_eq_sym; by apply pretty_nat_ne).
  by rewrite Hrest.
Qed.

(** [normalizePath] takes off the trailing slashes, all of them and nothing
    else. *)
Lemma normalizePath_slashes path :
  ∃ n, path = normalizePath path +:+ slashes n.
Proof.
  induction path as [|c rest [n IH]]; [by exists 0|]. simpl.
  destruct (normalizePath rest) as [|c' r'] eqn:Hrest.
  - destruct (Ascii.eqb_spec c "/") as [->|Hc].
    + exists (S n). change (rest = slashes n) in IH. by rewrite IH.
    + exists n. change (rest = slashes n) in IH. by rewrite IH.
  - exists n. change (rest = String c' (r' +:+ slashes n)) in IH. by rewrite IH.
Qed.

Lemma normalizePath_no_trailing_slash path s :
  normalizePath path ≠ s +:+ "/".
Proof.
  revert s. induction path as [|c rest IH]; intros s; simpl.
  { by destruct s. }
  destruct (normalizePath rest) as [|c' r'] eqn:Hrest.
  - destruct (Ascii.eqb_spec c "/") as [->|Hc]; [by destruct s|].
    destruct s as [|c0 [|??]]; cbv [String.append]; congruence.
  - destruct s as [|c0 s']; cbv [String.append]; fold String.append;
      [congruence|].
    intros [= _ Heq]. by apply (IH s').
Qed.

Section ChildTheory.

Variable pathToRegexp : string → RegExp.

(** The heap after [child]. *)
Lemma child_heap H this (P : Router) tpl steps :
  H !! this = Some P →
  let pattern := normalizePath tpl +:+ "/*" in
  let route :=
    {| route_path := pattern; route_re := pathToRegexp pattern;
       route_steps := steps ++ [StepDelegate (length H)] |} in
  let C :=
    {| basePath := normalizePath (basePath P) +:+ normalizePath tpl;
       baseRoute := Some (this, length (routes P));
       parentRouter := Some this; storeModule := storeModule P;
       routes := [] |} in
  child pathToRegexp H this tpl steps
    = (<[this := push_route route P]> (H ++ [C]), length H).
Proof.
  intros HR. simpl.
  assert (this < length H) as Hlt by (by eapply lookup_lt_Some).
  unfold child, add.
  rewrite (lookup_app_l_Some _ [new_Router] _ _ HR). simpl. f_equal.
  apply list_eq; intros j.
  destruct (decide (j = this)) as [->|Hj].
  - rewrite list_lookup_alter_eq, list_lookup_alter_ne by lia.
    rewrite !list_lookup_insert_eq by (rewrite length_app; simpl; lia).
    simpl. f_equal. unfold alter_route, push_route. simpl. f_equal.
    rewrite alter_app_r_alt by lia. rewrite Nat.sub_diag. simpl.
    by destruct P.
  - rewrite list_lookup_alter_ne by done.
    rewrite list_lookup_insert_ne by done.
    destruct (decide (j = length H)) as [->|Hj'].
    + rewrite list_lookup_alter_eq, list_lookup_insert_ne by done.
      by rewrite !list_lookup_middle.
    + rewrite list_lookup_alter_ne, list_lookup_insert_ne by done.
      destruct (decide (j < length H)).
      * by rewrite !lookup_app_l.
      * rewrite !lookup_ge_None_2; [done|rewrite length_app; simpl; lia..].
Qed.


(** Claim C8.  [child(path, ...steps)] allocates the child router and adds
    to the parent the route [normalizePath(path) + "/*"] whose steps are
    [steps] followed by the delegating step.  That step, on a bag whose
    [length] is [n + 1] and whose key [n] holds [rest], sets [length] to
    [n], deletes key [n] and returns the promise of the child's [exec] on
    ["/" + rest] with the same store and bag.  So when the route is the
    first to match a path, its last key being the unnamed capture [n] with
    text [rest], and [steps] are fulfilled and leave [length] and key [n]
    alone, [exec] on the parent settles as the child's [exec] on
    ["/" + rest] does. *)
Theorem child_delegates_rest H this (P : Router) tpl steps :
  H !! this = Some P →
  let pattern := normalizePath tpl +:+ "/*" in
  let c := length H in
  ∃ H',
    child pathToRegexp H this tpl steps = (H', c) ∧
    H' !! this =
      Some (push_route
              {| route_path := pattern; route_re := pathToRegexp pattern;
                 route_steps := steps ++ [StepDelegate c] |} P) ∧
    (∃ C, H' !! c = Some C ∧ routes C = [] ∧ parentRouter C = Some this) ∧
    (∀ (exec' : RouterId → string → Promise Bag) (ctx : Store) s params
       (n : nat) rest,
        params !! "length" = Some (VNum (Z.of_nat n + 1)) →
        params !! pretty n = Some (VStr rest) →
        run_step exec' ctx (StepDelegate c) (s, params) =
          then_ (exec' c ("/" +:+ rest)) (λ b, resolve (Some b))
            (s, delete (pretty n) (<["length" := VNum (Z.of_nat n)]> params))) ∧
    (∀ fuel (ctx : Store) path s params m keys (n : nat) rest vs s1 b1,
        Forall (no_match path) (routes P) →
        re_exec (pathToRegexp pattern) path = Some m →
        re_keys (pathToRegexp pattern) = keys ++ [MkKey (NameNum n)] →
        m !! (length keys + 1) = Some (Some rest) →
        mapSeries (run_step (exec fuel H' ctx) ctx) steps
          (s, match_ H' this path params) = Some (Fulfilled vs, (s1, b1)) →
        b1 !! "length" = match_ H' this path params !! "length" →
        b1 !! pretty n = match_ H' this path params !! pretty n →
        exec (S fuel) H' ctx this path (s, params) =
          exec fuel H' ctx c ("/" +:+ rest)
            (s1, delete (pretty n) (<["length" := VNum (Z.of_nat n)]> b1))).
Proof.
  intros HP pattern c.
  assert (this < length H) as Hlt by (by eapply lookup_lt_Some).
  eexists. split; [by apply child_heap|].
  assert (∀ (exec' : RouterId → string → Promise Bag) (ctx : Store) s params
            (n : nat) rest,
    params !! "length" = Some (VNum (Z.of_nat n + 1)) →
    params !! pretty n = Some (VStr rest) →
    run_step exec' ctx (StepDelegate c) (s, params) =
      then_ (exec' c ("/" +:+ rest)) (λ b, resolve (Some b))
        (s, delete (pretty n) (<["length" := VNum (Z.of_nat n)]> params)))
    as Hdelegate.
  { intros exec' ctx s params n rest Hlen Hrest. unfold run_step.
    by rewrite (take_rest_positional _ _ _ Hlen Hrest). }
  subst c pattern. split_and!.
  - apply list_lookup_insert_eq. rewrite length_app. lia.
  - eexists. split.
    + rewrite list_lookup_insert_ne by lia. by rewrite list_lookup_middle.
    + done.
  - done.
  - intros fuel ctx path s params m keys n rest vs s1 b1
      Hpre Hm Hkeys Hrest Hsteps Hlen Hn.
    set (H' := <[this := _]> _) in *.
    set (route := MkRoute _ _ (steps ++ _)) in *.
    assert (routes_of H' this = routes P ++ route :: []) as Hrs.
    { unfold routes_of, H'. rewrite list_lookup_insert_eq; [done|].
      rewrite length_app. lia. }
    destruct (match_last_positional H' this path params _ _ _ m keys n
                Hrs Hpre Hm Hkeys) as (Hroute & Hlen0 & Hn0).
    unfold match_at in Hn0. rewrite Hrest in Hn0.
    rewrite Hlen0 in Hlen. rewrite Hn0 in Hn.
    erewrite exec_matched; [|done|by rewrite Hrs, list_lookup_middle].
    simpl. unfold return_params, catch_, then_ at 1.
    rewrite (mapSeries_snoc _ _ _ _ _ _ Hsteps).
    unfold then_ at 1. rewrite (Hdelegate _ _ _ _ _ _ Hlen Hn).
    unfold then_, resolve.
    destruct (exec fuel H' ctx _ _ _) as [[r st']|] eqn:Hc; [|done].
    apply exec_settles_fulfilled in Hc as ->. done.
Qed.

End ChildTheory.

(** *** The navigation module *)

Section ControllerTheory.

Variable H : Heap.
Variable router : RouterId.
Variable store : Store.
Variable post : Hook.

Local Abbreviation nav := (navigate H router).
Local Abbreviation adv := (advance H store post).
Local Abbreviation step1 := (step H router store post).
Local Abbreviation runs := (run H router store post).

Lemma run_app evs1 evs2 (w : World) : runs (evs1 ++ evs2) w = runs evs2 (runs evs1 w).
Proof. apply foldl_app. Qed.

Lemma run_snoc evs ev (w : World) : runs (evs ++ [ev]) w = step1 ev (runs evs w).
Proof. apply run_app. Qed.

Lemma navigate_same path (w : World) :
  handle_path (currentHandle w) = path → nav path w = w.
Proof. intros Hp. unfold navigate. by rewrite decide_True. Qed.

Lemma navigate_current_path path (w : World) :
  handle_path (currentHandle (nav path w)) = path.
Proof.
  unfold navigate. case_decide; [done|].
  by destruct (start_exec _ _ _ _).
Qed.

Lemma navigate_new path (w : World) :
  handle_path (currentHandle w) ≠ path →
  ∃ t, nav path w =
         {| currentHandle := {| handle_id := S (length (tasks w)); handle_path := path |};
            state := navigating (state w);
            location_hash := location_hash w;
            rootState := rootState w;
            tasks := tasks w ++ [t] |} ∧
       task_handle t = {| handle_id := S (length (tasks w)); handle_path := path |}.
Proof.
  intros Hp. unfold navigate. rewrite decide_False by done.
  destruct (start_exec _ _ _ _). by eexists.
Qed.

(** A callback of a navigation leaves the current handle alone, creates no
    navigation and keeps every navigation's handle. *)
Lemma advance_frame i (w : World) :
  currentHandle (adv i w) = currentHandle w ∧
  length (tasks (adv i w)) = length (tasks w) ∧
  ∀ j t', tasks (adv i w) !! j = Some t' →
    ∃ t, tasks w !! j = Some t ∧ task_handle t' = task_handle t.
Proof.
  unfold advance.
  destruct (tasks w !! i) as [t|] eqn:Ht; [|by eauto].
  assert (∀ t' j t'', task_handle t' = task_handle t →
            <[i := t']> (tasks w) !! j = Some t'' →
            ∃ t0, tasks w !! j = Some t0 ∧ task_handle t'' = task_handle t0) as Hset.
  { intros t' j t'' Hh.
    destruct (decide (i = j)) as [<-|Hij].
    - rewrite list_lookup_insert_eq by (by eapply lookup_lt_Some).
      intros [= <-]. eauto.
    - rewrite list_lookup_insert_ne by done. eauto. }
  destruct (task_phase t) as [[|[|st more] rest]| |r] eqn:Hphase.
  - unfold run_post. destruct (post _ _) as [[r s] params].
    destruct r as [e|v|[[]|e]]; simpl; rewrite length_insert;
      (split_and!; [done..|]); intros j t''; by apply Hset.
  - simpl. rewrite length_insert. split_and!; [done..|].
    intros j t''; by apply Hset.
  - destruct (pipeline_step _ _ _ _) as [[s params] frames'].
    simpl. rewrite length_insert. split_and!; [done..|].
    intros j t''; by apply Hset.
  - unfold finish. case_decide; simpl; rewrite length_insert;
      (split_and!; [done..|]); intros j t''; by apply Hset.
  - eauto.
Qed.

(** Only the second [tap] of the navigation holding the current handle
    writes the module's state and [location.hash]. *)
Lemma advance_stale i t (w : World) :
  tasks w !! i = Some t →
  handle_id (task_handle t) ≠ handle_id (currentHandle w) →
  state (adv i w) = state w ∧
  location_hash (adv i w) = location_hash w.
Proof.
  intros Ht Hne. unfold advance. rewrite Ht.
  destruct (task_phase t) as [[|[|st more] rest]| |r].
  - by destruct (run_post _ _ _).
  - done.
  - by destruct (pipeline_step _ _ _ _) as [[s params] frames'].
  - unfold finish. by rewrite decide_False by done.
  - done.
Qed.

Lemma init_in_order hash (s : AppState) : handles_in_order (init hash s).
Proof. split; [done|]. by intros i t. Qed.

Lemma navigate_in_order path (w : World) :
  handles_in_order w → handles_in_order (nav path w).
Proof.
  intros [Hcur Htasks].
  destruct (decide (handle_path (currentHandle w) = path)) as [Hp|Hp].
  { by rewrite navigate_same. }
  destruct (navigate_new path w Hp) as (t & -> & Ht). split; simpl.
  - rewrite length_app. simpl. lia.
  - intros i t' [[_ Hi]|[-> ->]]%lookup_snoc_Some; [by apply Htasks|].
    by rewrite Ht.
Qed.

Lemma advance_in_order i (w : World) :
  handles_in_order w → handles_in_order (adv i w).
Proof.
  intros [Hcur Htasks].
  destruct (advance_frame i w) as (Hc & Hl & Hh). split.
  - by rewrite Hc, Hl.
  - intros j t' (t & Ht & ->)%Hh. by apply Htasks.
Qed.

Lemma step_in_order ev (w : World) :
  handles_in_order w → handles_in_order (step1 ev w).
Proof.
  destruct ev; simpl; [apply navigate_in_order| |apply advance_in_order].
  intros ?. by apply navigate_in_order.
Qed.

Lemma run_in_order evs (w : World) :
  handles_in_order w → handles_in_order (runs evs w).
Proof.
  revert w. induction evs as [|ev evs IH]; intros w Hw; [done|].
  simpl. by apply IH, step_in_order.
Qed.


Lemma step_monotone ev (w : World) :
  handles_in_order w →
  handle_id (currentHandle w) ≤ handle_id (currentHandle (step1 ev w)) ∧
  length (tasks w) ≤ length (tasks (step1 ev w)).
Proof.
  intros [Hcur _].
  assert (∀ path (w' : World),
    handle_id (currentHandle w') ≤ length (tasks w') →
    handle_id (currentHandle w') ≤ handle_id (currentHandle (nav path w')) ∧
    length (tasks w') ≤ length (tasks (nav path w'))) as Hnav.
  { intros path w' Hw'.
    destruct (decide (handle_path (currentHandle w') = path)) as [Hp|Hp].
    { by rewrite navigate_same. }
    destruct (navigate_new path w' Hp) as (t & -> & _). simpl.
    rewrite length_app. simpl. lia. }
  destruct ev as [path|hash|i]; simpl.
  - by apply Hnav.
  - by apply (Hnav _ (MkWorld _ _ _ _ _)).
  - destruct (advance_frame i w) as (-> & -> & _). done.
Qed.

Lemma run_monotone evs (w : World) :
  handles_in_order w →
  handle_id (currentHandle w) ≤ handle_id (currentHandle (runs evs w)) ∧
  length (tasks w) ≤ length (tasks (runs evs w)).
Proof.
  revert w. induction evs as [|ev evs IH]; intros w Hw; [done|]. simpl.
  destruct (step_monotone ev w Hw) as [? ?].
  destruct (IH _ (step_in_order ev w Hw)) as [? ?]. lia.
Qed.

Lemma run_advances advs (w : World) :
  Forall is_advance advs →
  currentHandle (runs advs w) = currentHandle w ∧
  length (tasks (runs advs w)) = length (tasks w).
Proof.
  intros Hadvs. revert w.
  induction Hadvs as [|[| |i] advs Hev _ IH]; intros w; try done. simpl.
  destruct (IH (adv i w)) as [-> ->].
  by destruct (advance_frame i w) as (-> & -> & _).
Qed.

(** Claim C1.  Navigation A is started, and later navigation B, to a path
    other than the current handle's.  From then on, whatever happens in
    between (B running to its commit included), A holds a handle that is
    not the current one, and a callback of A changes neither the module's
    state nor [location.hash]. *)
Theorem preempted_navigation_never_commits hash (s0 : AppState)
    evs0 pA evs1 pB evs2 :
  let w0 := runs evs0 (init hash s0) in
  let a := length (tasks w0) in
  let w1 := runs evs1 (nav pA w0) in
  let w2 := runs evs2 (nav pB w1) in
  handle_path (currentHandle w0) ≠ pA →
  handle_path (currentHandle w1) ≠ pB →
  (∃ tA, tasks w2 !! a = Some tA ∧
         task_handle tA = {| handle_id := S a; handle_path := pA |} ∧
         handle_id (currentHandle w2) ≠ S a) ∧
  state (adv a w2) = state w2 ∧
  location_hash (adv a w2) = location_hash w2.
Proof.
  intros w0 a w1 w2 HpA HpB.
  assert (handles_in_order w0) as Hw0 by apply run_in_order, init_in_order.
  destruct (navigate_new pA w0 HpA) as (tA & HwA & HtA).
  assert (handles_in_order (nav pA w0)) as HwA' by by apply navigate_in_order.
  assert (handles_in_order w1) as Hw1 by by apply run_in_order.
  destruct (run_monotone evs1 _ HwA') as [_ Hlen1]. fold w1 in Hlen1.
  rewrite HwA in Hlen1. simpl in Hlen1. rewrite length_app in Hlen1.
  simpl in Hlen1. fold a in Hlen1.
  destruct (navigate_new pB w1 HpB) as (tB & HwB & _).
  assert (handles_in_order (nav pB w1)) as HwB' by by apply navigate_in_order.
  assert (handles_in_order w2) as Hw2 by by apply run_in_order.
  destruct (run_monotone evs2 _ HwB') as [Hcur2 Hlen2]. fold w2 in Hcur2, Hlen2.
  rewrite HwB in Hcur2, Hlen2. simpl in Hcur2, Hlen2.
  rewrite length_app in Hlen2. simpl in Hlen2.
  destruct (lookup_lt_is_Some_2 (tasks w2) a) as [t Ht]; [lia|].
  assert (handle_id (task_handle t) = S a) as Hid by by apply Hw2.
  assert (handle_id (currentHandle w2) ≠ S a) as Hne by lia.
  split.
  - exists t. split_and!; [done| |done].
    (* the handle is the one [navigate pA] made *)
    assert (∀ evs (w : World) t0, tasks w !! a = Some t0 →
              ∃ t1, tasks (runs evs w) !! a = Some t1 ∧
                    task_handle t1 = task_handle t0) as Hkeep.
    { clear. intros evs. induction evs as [|ev evs IH]; intros w t0 Ht0; [by eauto|].
      simpl.
      assert (∃ t1, tasks (step1 ev w) !! a = Some t1 ∧
                    task_handle t1 = task_handle t0) as (t1 & Ht1 & <-).
      { assert (∀ path (w' : World), tasks w' !! a = Some t0 →
                  tasks (nav path w') !! a = Some t0) as Hnav.
        { intros path w' Hw'.
          destruct (decide (handle_path (currentHandle w') = path)) as [Hp|Hp].
          { by rewrite navigate_same. }
          destruct (navigate_new path w' Hp) as (t & -> & _). simpl.
          by apply lookup_app_l_Some. }
        destruct ev as [path|hash'|i]; simpl.
        - eauto.
        - exists t0. split; [|done]. by apply (Hnav _ (MkWorld _ _ _ _ _)).
        - destruct (advance_frame i w) as (_ & Hl & Hh).
          destruct (lookup_lt_is_Some_2 (tasks (adv i w)) a) as [t1 Ht1].
          { rewrite Hl. by eapply lookup_lt_Some. }
          exists t1. split; [done|].
          destruct (Hh _ _ Ht1) as (t0' & Ht0' & ->). congruence. }
      by apply IH. }
    assert (tasks (nav pA w0) !! a = Some tA) as HtA0.
    { rewrite HwA. simpl. by apply list_lookup_middle. }
    destruct (Hkeep evs1 _ _ HtA0) as (t1 & Ht1 & Hh1). fold w1 in Ht1.
    assert (tasks (nav pB w1) !! a = Some t1) as HtB0.
    { rewrite HwB. simpl. by apply lookup_app_l_Some. }
    destruct (Hkeep evs2 _ _ HtB0) as (t2 & Ht2 & Hh2). fold w2 in Ht2.
    assert (t2 = t) as -> by congruence. by rewrite Hh2, Hh1, HtA.
  - apply (advance_stale _ t); [done|]. by rewrite Hid.
Qed.

(** Claim C7.  [navigate(path)] with the path of the current handle leaves
    everything as it is: no handle, no [navigating], no pipeline.  So after
    a first [navigate(path)] and any callbacks of running navigations, a
    second [navigate(path)] changes nothing, and the two calls start one
    pipeline. *)
Theorem repeated_navigate_is_noop path advs (w : World) :
  (handle_path (currentHandle w) = path → nav path w = w) ∧
  (Forall is_advance advs →
   let w1 := runs advs (nav path w) in
   nav path w1 = w1 ∧
   (handle_path (currentHandle w) ≠ path →
    length (tasks (runs (Navigate path :: advs ++ [Navigate path]) w))
      = S (length (tasks w)))).
Proof.
  split; [apply navigate_same|]. intros Hadvs w1.
  destruct (run_advances advs (nav path w) Hadvs) as [Hcur Hlen]. fold w1 in Hcur, Hlen.
  assert (nav path w1 = w1) as Hnoop.
  { apply navigate_same. rewrite Hcur. apply navigate_current_path. }
  split; [done|]. intros Hp.
  change (runs (Navigate path :: advs ++ [Navigate path]) w)
    with (runs (advs ++ [Navigate path]) (nav path w)).
  rewrite run_snoc. simpl. fold w1. rewrite Hnoop, Hlen.
  destruct (navigate_new path w Hp) as (t & -> & _). simpl.
  rewrite length_app. simpl. lia.
Qed.

End ControllerTheory.

(** *** The post-routing hook *)

Section HookTheory.

Variable H : Heap.
Variable router : RouterId.
Variable store : Store.

(** With a hook that returns a promise, the first [tap] is fulfilled
    whether the hook's promise is fulfilled or rejected, a rejection being
    recorded under [error], and the second [tap] is due. *)
Lemma advance_post_promise (post : Hook) i t (w : World) r s params :
  tasks w !! i = Some t →
  task_phase t = Executing [] →
  post (rootState w) (task_params t) = (HookReturnsPromise r, s, params) →
  advance H store post i w =
    set_task i
      {| task_handle := task_handle t;
         task_params := match r with
                        | Fulfilled _ => params
                        | Rejected e => <["error" := VError e]> params
                        end;
         task_phase := Posted |} s w.
Proof.
  intros Ht Hphase Hpost. unfold advance, run_post.
  rewrite Ht, Hphase, Hpost. by destruct r.
Qed.

(** With a hook that throws, or returns something that is no promise, the
    first [tap] is rejected: the navigation is over, and neither the check
    against the current handle nor the commit takes place. *)
Lemma advance_post_no_promise (post : Hook) i t (w : World) r s params :
  tasks w !! i = Some t →
  task_phase t = Executing [] →
  post (rootState w) (task_params t) = (r, s, params) →
  (∀ r', r ≠ HookReturnsPromise r') →
  ∃ e,
    advance H store post i w =
      set_task i {| task_handle := task_handle t; task_params := params;
                    task_phase := Done (Rejected e) |} s w ∧
    advance H store post i (set_task i
              {| task_handle := task_handle t; task_params := params;
                 task_phase := Done (Rejected e) |} s w)
            = set_task i {| task_handle := task_handle t; task_params := params;
                            task_phase := Done (Rejected e) |} s w.
Proof.
  intros Ht Hphase Hpost Hr. unfold advance at 1, run_post.
  rewrite Ht, Hphase, Hpost.
  destruct r as [e|v|r']; [exists e|exists (no_catch v)|by destruct (Hr r')];
    (split; [done|]); unfold advance; simpl;
    by rewrite list_lookup_insert_eq by (by eapply lookup_lt_Some).
Qed.

Lemma default_post_step ev (w : World) :
  none_posted w →
  none_posted (step H router store default_post ev w) ∧
  state_path (state (step H router store default_post ev w)) = state_path (state w) ∧
  state_params (state (step H router store default_post ev w)) = state_params (state w) ∧
  (progress (state w) = true ∨ tasks w = [] →
   progress (state (step H router store default_post ev w)) = true ∨
   tasks (step H router store default_post ev w) = []).
Proof.
  intros Hw.
  assert (∀ path (w' : World), none_posted w' →
    none_posted (navigate H router path w') ∧
    state_path (state (navigate H router path w')) = state_path (state w') ∧
    state_params (state (navigate H router path w')) = state_params (state w') ∧
    (progress (state w') = true ∨ tasks w' = [] →
     progress (state (navigate H router path w')) = true ∨
     tasks (navigate H router path w') = [])) as Hnav.
  { intros path w' Hw'. unfold navigate. case_decide; [done|].
    destruct (start_exec _ _ _ _) as [params frames]. simpl.
    split_and!; [|done|done|by left].
    intros i t [[_ Hi]|[-> <-]]%lookup_snoc_Some; [by apply (Hw' i)|done]. }
  destruct ev as [path|hash|i]; simpl.
  - by apply Hnav.
  - by apply (Hnav _ (MkWorld _ _ _ _ _)).
  - unfold advance. destruct (tasks w !! i) as [t|] eqn:Ht; [|done].
    assert (∀ t' s, task_phase t' ≠ Posted →
              task_phase t' ≠ Done (Fulfilled tt) →
              none_posted (set_task i t' s w)) as Hset.
    { intros t' s ?? j t''. simpl.
      destruct (decide (i = j)) as [<-|Hij].
      - rewrite list_lookup_insert_eq by (by eapply lookup_lt_Some).
        by intros [= <-].
      - rewrite list_lookup_insert_ne by done. apply (Hw j). }
    assert (∀ t' s, tasks (set_task i t' s w) = [] → tasks w = []) as Hnil.
    { intros t' s. simpl. intros Hnil. apply (f_equal length) in Hnil.
      rewrite length_insert in Hnil. by destruct (tasks w). }
    destruct (task_phase t) as [[|[|st more] rest]| |r] eqn:Hphase.
    + simpl. split_and!; [by apply Hset|done|done|].
      intros [?|Hnil']; [by left|]. by rewrite Hnil' in Ht.
    + simpl. split_and!; [by apply Hset|done|done|].
      intros [?|Hnil']; [by left|]. by rewrite Hnil' in Ht.
    + destruct (pipeline_step _ _ _ _) as [[s params] frames'].
      simpl. split_and!; [by apply Hset|done|done|].
      intros [?|Hnil']; [by left|]. by rewrite Hnil' in Ht.
    + by destruct (Hw i t Ht).
    + done.
Qed.

(** Claim C9, on the code as it is.  With the hook the module installs,
    [router.post = () => {}], whatever navigations are started and however
    they are scheduled, none comes to its second [tap]: no task is ever
    [Posted] or done with a fulfilled promise, the module's [path] and
    [params] keep their initial values, and [progress], once on, stays
    on. *)
Theorem default_post_never_commits hash (s0 : AppState) evs :
  let w := run H router store default_post evs (init hash s0) in
  none_posted w ∧
  state_path (state w) = "" ∧
  state_params (state w) = ∅ ∧
  (progress (state w) = true ∨ tasks w = []).
Proof.
  simpl.
  cut (∀ w : World, none_posted w →
         (progress (state w) = true ∨ tasks w = []) →
         let w' := run H router store default_post evs w in
         none_posted w' ∧ state_path (state w') = state_path (state w) ∧
         state_params (state w') = state_params (state w) ∧
         (progress (state w') = true ∨ tasks w' = [])).
  { intros Hcut. apply (Hcut (init hash s0)); [by intros i t|by right]. }
  induction evs as [|ev evs' IH]; intros w Hw Hp; [done|]. simpl.
  destruct (default_post_step ev w Hw) as (Hw' & Hpath & Hparams & Hp').
  destruct (IH _ Hw' (Hp' Hp)) as (? & -> & -> & ?). done.
Qed.

End HookTheory.

(** *** The transitions of a running [exec] agree with [exec] *)

Section PipelineTheory.

Variable H : Heap.
Variable store : Store.

Lemma pipeline_run_add n m (σ : St) frames :
  pipeline_run H store (n + m) σ frames =
    pipeline_run H store m (pipeline_run H store n σ frames).1
      (pipeline_run H store n σ frames).2.
Proof.
  revert σ frames. induction n as [|n IH]; intros σ frames; [done|]. simpl.
  destruct (pipeline_step _ _ _ _) as [σ' frames']. apply IH.
Qed.

Lemma series_pipeline (exec' : RouterId → string → Promise Bag) :
  (∀ this path st r st', exec' this path st = Some (r, st') →
     r = Fulfilled (snd st')) →
  (∀ this path s params r st', exec' this path (s, params) = Some (r, st') →
     ∀ rest, ∃ n,
       pipeline_run H store n (s, (start_exec H this path params).1)
         ((start_exec H this path params).2 ++ rest) = (st', rest)) →
  ∀ steps st r st', mapSeries (run_step exec' store) steps st = Some (r, st') →
    ∀ rest, ∃ n,
      pipeline_run H store n st (steps :: rest) = (caught r st', rest).
Proof.
  intros Hful Hexec. induction steps as [|x steps IH]; intros st r st' Hrun rest.
  { injection Hrun as <- <-. by exists 1. }
  simpl in Hrun. unfold then_ at 1 in Hrun.
  destruct (run_step exec' store x st) as [[[v|e] st1]|] eqn:Hx; [| |done].
  - (* the step is fulfilled, the series goes on *)
    assert (∃ n, pipeline_run H store n st ((x :: steps) :: rest)
                 = (st1, steps :: rest)) as [n Hn].
    { destruct st as [s params]. destruct x as [action|f|c|o].
      - exists 1. simpl in *.
        destruct (dispatch store action s params) as [[r0 s0] b0].
        by simplify_eq.
      - exists 1. simpl in *. destruct (f s params) as [[r0 s0] b0].
        by simplify_eq.
      - unfold run_step in Hx.
        destruct (take_rest params) as [path params'] eqn:Hrest.
        unfold then_, resolve in Hx.
        destruct (exec' c path (s, params')) as [[[b2|e2] st2]|] eqn:Hc;
          simplify_eq/=.
        destruct (Hexec _ _ _ _ _ _ Hc (steps :: rest)) as [n Hn].
        exists (S n). cbn [pipeline_run]. unfold pipeline_step. rewrite Hrest.
        destruct (start_exec H c path params'). exact Hn.
      - exists 1. simpl in *. by simplify_eq. }
    unfold then_, resolve in Hrun.
    destruct (mapSeries _ steps st1) as [[r2 st2]|] eqn:Hsteps; [|done].
    destruct (IH _ _ _ Hsteps rest) as [m Hm].
    exists (n + m). rewrite pipeline_run_add, Hn. simpl. rewrite Hm.
    by destruct r2; simplify_eq/=.
  - (* the step is rejected *)
    injection Hrun as <- <-. exists 1.
    destruct st as [s params]. destruct x as [action|f|c|o].
    + simpl in *. destruct (dispatch store action s params) as [[r0 s0] b0].
      by simplify_eq.
    + simpl in *. destruct (f s params) as [[r0 s0] b0]. by simplify_eq.
    + unfold run_step in Hx. destruct (take_rest params) as [path params'].
      unfold then_, resolve in Hx.
      destruct (exec' c path (s, params')) as [[r0 st0]|] eqn:Hc; [|done].
      by rewrite (Hful _ _ _ _ _ Hc) in Hx.
    + done.
Qed.

(** When [exec] settles, the transitions of the running pipeline, left to
    themselves, reach the same store and bag with this [exec]'s frames
    gone. *)
Lemma exec_pipeline fuel this path s params r st' :
  exec fuel H store this path (s, params) = Some (r, st') →
  ∀ rest, ∃ n,
    pipeline_run H store n (s, (start_exec H this path params).1)
      ((start_exec H this path params).2 ++ rest) = (st', rest).
Proof.
  revert this path s params r st'.
  induction fuel as [|fuel IH]; intros this path s params r st'; [done|].
  rewrite exec_unfold. cbv zeta. unfold start_exec.
  destruct (truthy _).
  - unfold return_params, catch_, then_ at 1.
    destruct (mapSeries _ _ _) as [[r1 st1]|] eqn:Hsteps; [|done].
    intros Hr rest.
    destruct (series_pipeline _ (exec_settles_fulfilled fuel H store) IH
                _ _ _ _ Hsteps rest) as [n Hn].
    exists n. simpl. rewrite Hn. destruct r1 as [vs|e]; simpl in *.
    + by simplify_eq.
    + destruct st1. simpl in *. by simplify_eq.
  - simpl. intros [= <- <-] rest. by exists 0.
Qed.

End PipelineTheory.

(** *** [exec] settles *)

Lemma mapSeries_settles {A B} (f : A → Promise B) l :
  (∀ x, x ∈ l → ∀ st, is_Some (f x st)) → ∀ st, is_Some (mapSeries f l st).
Proof.
  induction l as [|x l IH]; intros Hf st; [by eexists|].
  simpl. unfold then_ at 1.
  destruct (Hf x (list_elem_of_here _ _) st) as [[[v|e] st1] ->]; [|by eexists].
  unfold then_, resolve.
  destruct (IH (λ y Hy, Hf y (list_elem_of_further _ _ _ Hy)) st1)
    as [[[vs|e] st2] ->]; by eexists.
Qed.

(** On a heap whose delegations go upward, [exec] settles as soon as the
    budget exceeds the number of routers above the one it starts in. *)
Lemma exec_settles H (ctx : Store) fuel this path st :
  delegates_upward H →
  length H - this < fuel →
  is_Some (exec fuel H ctx this path st).
Proof.
  intros Hup. revert this path st.
  induction fuel as [|fuel IH]; intros this path [s params] Hfuel; [lia|].
  rewrite exec_unfold. cbv zeta.
  assert (is_Some ((if truthy (get (match_ H this path params) "route")
                    then mapSeries (run_step (exec fuel H ctx) ctx)
                           (steps_of H (get (match_ H this path params) "route"))
                    else reject NotFound) (s, match_ H this path params)))
    as [[[vs|e] [s1 b1]] Hrun].
  { destruct (match_cases H this path params)
      as [(pre & R & post & m & Hrs & _ & _ & ->)|[_ ->]];
      unfold get; rewrite lookup_insert_eq; simpl; [|by eexists].
    rewrite Hrs, list_lookup_middle by done.
    apply mapSeries_settles. intros x Hx [s' b'].
    destruct x as [action|f|c|o].
    - simpl. destruct (dispatch ctx action s' b') as [[??]?]. by eexists.
    - simpl. destruct (f s' b') as [[??]?]. by eexists.
    - unfold run_step. destruct (take_rest b') as [path' b''].
      unfold routes_of in Hrs. destruct (H !! this) as [P|] eqn:HP;
        [|by destruct pre].
      assert (this < c < length H) as Hc.
      { apply (Hup this P (length pre) R c HP); [|done].
        by rewrite Hrs, list_lookup_middle. }
      destruct (IH c path' (s', b'')) as [[r st'] Hex]; [lia|].
      unfold then_, resolve. rewrite Hex.
      by rewrite (exec_settles_fulfilled _ _ _ _ _ _ _ _ Hex); eexists.
    - by eexists. }
  - unfold return_params, catch_, then_ at 1. rewrite Hrun. by eexists.
  - unfold return_params, catch_, then_ at 1. rewrite Hrun. by eexists.
Qed.

Lemma new_Router_upward : delegates_upward [@new_Router AppState].
Proof. intros [|r] R i rt c; [|done]. intros [= <-]. done. Qed.

Section RegistrationTheory.

Variable pathToRegexp : string → RegExp.

Lemma push_route_upward H this (P : Router) rt :
  delegates_upward H →
  H !! this = Some P →
  (∀ c, StepDelegate c ∈ route_steps rt → this < c < length H) →
  delegates_upward (<[this := push_route rt P]> H).
Proof.
  intros Hup HP Hrt r R i rt' c. rewrite length_insert.
  destruct (decide (this = r)) as [<-|Hr].
  - rewrite list_lookup_insert_eq by (by eapply lookup_lt_Some).
    intros [= <-]. simpl.
    intros [[_ Hi]|[_ <-]]%lookup_snoc_Some; [by apply (Hup this P i)|apply Hrt].
  - rewrite list_lookup_insert_ne by done. apply Hup.
Qed.

Lemma add_upward H this path steps :
  delegates_upward H →
  (∀ c, StepDelegate c ∈ steps → this < c < length H) →
  delegates_upward (add pathToRegexp H this path steps).1.
Proof.
  intros Hup Hsteps. unfold add.
  destruct (H !! this) as [P|] eqn:HP; [|done]. simpl.
  by apply push_route_upward.
Qed.

Lemma child_upward H this (P : Router) path steps :
  delegates_upward H →
  H !! this = Some P →
  (∀ c, StepDelegate c ∈ steps → this < c < length H) →
  delegates_upward (child pathToRegexp H this path steps).1.
Proof.
  intros Hup HP Hsteps.
  rewrite (child_heap _ _ _ _ _ _ HP). simpl.
  assert (this < length H) as Hlt by (by eapply lookup_lt_Some).
  apply push_route_upward.
  - intros r R i rt c [[_ Hr]|[-> <-]]%lookup_snoc_Some; [|done].
    rewrite length_app. simpl. intros Hi Hc.
    specialize (Hup r R i rt c Hr Hi Hc). lia.
  - by apply lookup_app_l_Some.
  - simpl. rewrite length_app. simpl.
    intros c [Hc|[= ->]%list_elem_of_singleton]%elem_of_app.
    + specialize (Hsteps c Hc). lia.
    + lia.
Qed.

End RegistrationTheory.

(** *** A navigation that matches no route *)

Section NotFoundTheory.

Variable H : Heap.
Variable router : RouterId.
Variable store : Store.

Lemma start_exec_not_found path params :
  Forall (no_match path) (routes_of H router) →
  start_exec H router path params =
    (<["error" := VError NotFound]>
       (<["route" := VUndefined]> (<["router" := VRouter router]> params)), []).
Proof.
  intros Hall. unfold start_exec.
  destruct (match_cases H router path params)
    as [(pre & R & post & m & Hrs & _ & Hm & _)|[_ ->]].
  - rewrite Hrs in Hall. apply Forall_app in Hall as [_ Hall].
    apply Forall_cons in Hall as [HR _]. unfold no_match in HR. congruence.
  - unfold get. by rewrite lookup_insert_eq.
Qed.

(** With a hook whose promise is fulfilled, a navigation to a path that no
    route matches, still current when its second [tap] runs, is committed:
    the bag with [error] is stored and [location.hash] is written. *)
Lemma not_found_navigation_commits (post : Hook) path (w : World) s' :
  handle_path (currentHandle w) ≠ path →
  Forall (no_match path) (routes_of H router) →
  let params :=
    <["error" := VError NotFound]>
      (<["route" := VUndefined]> (<["router" := VRouter router]> ∅)) in
  post (rootState w) params = (HookReturnsPromise (Fulfilled tt), s', params) →
  let i := length (tasks w) in
  let w2 := advance H store post i
              (advance H store post i (navigate H router path w)) in
  state w2 = {| progress := false; state_path := path; state_params := params |} ∧
  location_hash w2 = "#" +:+ path.
Proof.
  intros Hp Hall params Hpost i w2. subst w2.
  unfold navigate. rewrite decide_False by done.
  rewrite (start_exec_not_found _ _ Hall). fold params.
  set (handle := {| handle_id := S (length (tasks w)); handle_path := path |}).
  set (t0 := {| task_handle := handle; task_params := params;
                task_phase := Executing [] |}).
  set (w0 := MkWorld handle _ _ _ _).
  assert (advance H store post i w0 =
            set_task i {| task_handle := handle; task_params := params;
                          task_phase := Posted |} s' w0) as ->.
  { apply (advance_post_promise H store post i t0 w0 (Fulfilled tt)); [|done..].
    by apply list_lookup_middle. }
  unfold advance. simpl.
  rewrite list_lookup_insert_eq by (rewrite length_app; simpl; lia). simpl.
  unfold finish. simpl. by case_decide.
Qed.

End NotFoundTheory.

(** *** Trailing slashes *)

Lemma normalizePath_only_slashes n : normalizePath (slashes n) = "".
Proof. induction n as [|n IH]; [done|]. simpl. by rewrite IH. Qed.

Lemma normalizePath_app_slashes path n :
  normalizePath (path +:+ slashes n) = normalizePath path.
Proof.
  induction path as [|c rest IH].
  - apply normalizePath_only_slashes.
  - cbv [String.append]; fold String.append. simpl. by rewrite IH.
Qed.

Lemma normalizePath_fixed path :
  no_trailing_slash path → normalizePath path = path.
Proof.
  intros Hp. destruct (normalizePath_slashes path) as [[|n] Hn].
  - rewrite Hn at 2. clear. induction (normalizePath path) as [|c s IH]; [done|].
    cbv [String.append]; fold String.append. by rewrite <- IH.
  - exfalso. apply (Hp (normalizePath path +:+ slashes n)).
    rewrite Hn at 1. clear.
    induction (normalizePath path) as [|c s IH].
    + cbv [String.append]. induction n as [|n IH]; [done|].
      simpl. cbv [String.append] in *; fold String.append in *. by f_equal.
    + cbv [String.append]; fold String.append. by f_equal.
Qed.

(** X1.  [normalizePath] takes the trailing slashes off and nothing else:
    the path is the result followed by slashes only, and the result does
    not end with a slash. *)
Theorem normalizePath_strips_trailing_slashes path :
  (∃ n, path = normalizePath path +:+ slashes n) ∧
  no_trailing_slash (normalizePath path).
Proof.
  split; [apply normalizePath_slashes|].
  intros s. apply normalizePath_no_trailing_slash.
Qed.

(** X2.  [normalizePath] is idempotent. *)
Theorem normalizePath_idempotent path :
  normalizePath (normalizePath path) = normalizePath path.
Proof.
  apply normalizePath_fixed. intros s. apply normalizePath_no_trailing_slash.
Qed.

Lemma string_get_app_r (u s : string) i :
  String.get (String.length u + i) (u +:+ s) = String.get i s.
Proof. induction u as [|c u IH]; [done|]. simpl. apply IH. Qed.

Lemma string_get_slashes i n : i < n → String.get i (slashes n) = Some "/"%char.
Proof.
  revert i. induction n as [|n IH]; intros [|i] Hi; simpl; try lia; [done|].
  apply IH. lia.
Qed.

Lemma string_substring_prefix (u s : string) :
  String.substring 0 (String.length u) (u +:+ s) = u.
Proof.
  induction u as [|c u IH]; simpl.
  - by destruct s.
  - cbv [String.append]; fold String.append. by rewrite IH.
Qed.

Lemma string_last (u : string) :
  u ≠ "" → ∃ u' c, u = u' +:+ String c "".
Proof.
  induction u as [|c u IH]; [done|]. intros _.
  destruct u as [|c' u].
  - by exists "", c.
  - destruct IH as (u' & c0 & ->); [done|]. by exists (String c u'), c0.
Qed.

Lemma string_length_app (a u : string) :
  String.length (a +:+ u) = String.length a + String.length u.
Proof. induction a as [|c a IH]; [done|]. simpl. by rewrite IH. Qed.

Lemma string_app_assoc (a u c : string) : (a +:+ u) +:+ c = a +:+ (u +:+ c).
Proof.
  induction a as [|x a IH]; [done|].
  cbv [String.append]; fold String.append. by rewrite IH.
Qed.

Lemma strip_loop_slashes (u : string) n k :
  k ≤ n →
  strip_loop (u +:+ slashes n) (String.length u + k)
    = strip_loop (u +:+ slashes n) (String.length u).
Proof.
  induction k as [|k IH]; intros Hk; [by rewrite Nat.add_0_r|].
  rewrite Nat.add_succ_r. simpl.
  rewrite string_get_app_r, string_get_slashes by lia. simpl. apply IH. lia.
Qed.

Lemma strip_loop_base (u s : string) :
  no_trailing_slash u → strip_loop (u +:+ s) (String.length u) = u.
Proof.
  intros Hb. destruct (decide (u = "")) as [->|Hne]; [done|].
  destruct (string_last u Hne) as (u' & c & ->).
  rewrite string_length_app. simpl. rewrite Nat.add_1_r. simpl.
  rewrite string_app_assoc.
  rewrite <- (Nat.add_0_r (String.length u')), string_get_app_r. simpl.
  destruct (Ascii.eqb_spec c "/") as [->|Hc]; [by destruct (Hb u')|].
  rewrite Nat.add_0_r.
  replace (S (String.length u')) with (String.length (u' +:+ String c ""))
    by (rewrite string_length_app; simpl; lia).
  rewrite <- string_app_assoc. apply string_substring_prefix.
Qed.

(** X3.  The loop of the earlier revision of [child] and [normalizePath]
    compute the same string. *)
Theorem strip_trailing_is_normalizePath path :
  strip_trailing path = normalizePath path.
Proof.
  destruct (normalizePath_slashes path) as [n Hn].
  unfold strip_trailing. rewrite Hn at 1 2.
  rewrite string_length_app.
  assert (String.length (slashes n) = n) as ->.
  { clear. induction n as [|n IH]; [done|]. simpl. by rewrite IH. }
  rewrite strip_loop_slashes by done. apply strip_loop_base.
  intros s. apply normalizePath_no_trailing_slash.
Qed.

(** X4.  [child] does not see the trailing slashes of its template:
    [child('/a//')] and [child('/a')] register the same route and the same
    child router. *)
Theorem child_ignores_trailing_slashes (pathToRegexp : string → RegExp)
    H this tpl n steps :
  child pathToRegexp H this (tpl +:+ slashes n) steps
    = child pathToRegexp H this tpl steps.
Proof. unfold child. by rewrite normalizePath_app_slashes. Qed.

(** *** More on Router.match *)

(** X5.  What [match] leaves in [route]: [undefined] exactly when no route
    of the router matches the path, and otherwise a route of this router
    whose pattern matches, no route before it matching. *)
Theorem match_route_characterized H this path params :
  match get (match_ H this path params) "route" with
  | VUndefined => Forall (no_match path) (routes_of H this)
  | VRoute r i =>
      r = this ∧
      ∃ R m, routes_of H this !! i = Some R ∧
             re_exec (route_re R) path = Some m ∧
             Forall (no_match path) (take i (routes_of H this))
  | _ => False
  end.
Proof.
  destruct (match_cases H this path params)
    as [(pre & R & post & m & Hrs & Hpre & Hm & ->)|[Hall ->]];
    unfold get; rewrite lookup_insert_eq; simpl; [|done].
  split; [done|]. exists R, m. rewrite Hrs. split_and!.
  - by apply list_lookup_middle.
  - done.
  - by rewrite take_app_length.
Qed.

(** X6.  [match] writes [router], [route] and, when a route matches,
    [length] and the properties named by that route's keys; every other
    property of the bag it is given stays as it was.  When no route matches,
    [length] stays too. *)
Theorem match_frame H this path params k :
  k ≠ "router" → k ≠ "route" →
  (∀ i R, get (match_ H this path params) "route" = VRoute this i →
          routes_of H this !! i = Some R →
          k ≠ "length" ∧
          Forall (λ key, prop_of (name key) ≠ k) (re_keys (route_re R))) →
  match_ H this path params !! k = params !! k.
Proof.
  intros Hrouter Hroute Hkeys.
  destruct (match_cases H this path params)
    as [(pre & R & post & m & Hrs & Hpre & Hm & Heq)|[Hall Heq]].
  - destruct (Hkeys (length pre) R) as [Hlen HR].
    { rewrite Heq. unfold get. by rewrite lookup_insert_eq. }
    { by rewrite Hrs, list_lookup_middle. }
    rewrite Heq, lookup_insert_ne, bind_keys_other by done.
    by rewrite !lookup_insert_ne.
  - rewrite Heq. by rewrite !lookup_insert_ne.
Qed.


(** *** More on registration *)

Section MoreRegistration.

Variable pathToRegexp : string → RegExp.

Lemma add_heap H this (P : Router) tpl steps :
  H !! this = Some P →
  add pathToRegexp H this tpl steps =
    (<[this := push_route (new_Route pathToRegexp (basePath P) tpl steps) P]> H,
     length (routes P)).
Proof. intros HP. unfold add. by rewrite HP. Qed.

Lemma routes_of_add H this tpl steps r :
  routes_of (add pathToRegexp H this tpl steps).1 r =
    routes_of H r ++
      (if decide (r = this ∧ is_Some (H !! this))
       then [new_Route pathToRegexp
               (from_option basePath "" (H !! this)) tpl steps]
       else []).
Proof.
  unfold add, routes_of. destruct (H !! this) as [P|] eqn:HP; simpl.
  - destruct (decide (r = this)) as [->|Hr].
    + rewrite list_lookup_insert_eq by (by eapply lookup_lt_Some).
      rewrite HP. simpl.
      by rewrite decide_True by (split; [done|by eexists]).
    + rewrite list_lookup_insert_ne by done.
      rewrite decide_False by (by intros [? _]). by rewrite app_nil_r.
  - rewrite decide_False by (by intros [_ [? ?]]). by rewrite app_nil_r.
Qed.

Lemma match_more_routes H H' r path params extra :
  routes_of H' r = routes_of H r ++ extra →
  get (match_ H r path params) "route" ≠ VUndefined →
  match_ H' r path params = match_ H r path params.
Proof.
  intros Hrs Hfound.
  destruct (match_cases H r path params)
    as [(pre & R & post & m & Hr & Hpre & Hm & Heq)|[Hall Heq]].
  - rewrite Heq. unfold match_. rewrite Hrs, Hr, <- app_assoc.
    rewrite find_route_skip by done. simpl. by rewrite Hm.
  - rewrite Heq in Hfound. unfold get in Hfound.
    by rewrite lookup_insert_eq in Hfound.
Qed.

(** X8.  Registration order is precedence: adding a route, to whatever
    router, does not change what [match] gives on any router for a path
    that one of its routes already matches. *)
Theorem add_keeps_matches H this tpl steps r path params :
  get (match_ H r path params) "route" ≠ VUndefined →
  match_ (add pathToRegexp H this tpl steps).1 r path params
    = match_ H r path params.
Proof. intros Hfound. eapply match_more_routes; [apply routes_of_add|done]. Qed.


(** X10.  [child] adds its route to the parent as [add] does: what [match]
    gave on the parent for a path one of its routes matched, it still
    gives. *)
Theorem child_keeps_matches H this (P : Router) tpl steps path params :
  H !! this = Some P →
  get (match_ H this path params) "route" ≠ VUndefined →
  match_ (child pathToRegexp H this tpl steps).1 this path params
    = match_ H this path params.
Proof.
  intros HP Hfound. rewrite (child_heap _ _ _ _ _ _ HP). simpl.
  eapply match_more_routes; [|done].
  unfold routes_of. rewrite HP.
  rewrite list_lookup_insert_eq; [done|].
  rewrite length_app. apply lookup_lt_Some in HP. lia.
Qed.

Lemma Built_upward H : Built pathToRegexp H → delegates_upward H.
Proof.
  induction 1 as [|H _ IH|H this tpl steps _ IH [P HP] Hsteps
                  |H this tpl steps _ IH [P HP] Hsteps].
  - by intros r R i rt c.
  - intros r R i rt c [[_ Hr]|[-> <-]]%lookup_snoc_Some; [|done].
    rewrite length_app. simpl. intros Hi Hc.
    specialize (IH r R i rt c Hr Hi Hc). lia.
  - apply add_upward; [done|]. intros c Hc. by destruct (Hsteps c).
  - apply (child_upward _ _ _ P); [done..|]. intros c Hc. by destruct (Hsteps c).
Qed.

(** X11.  Delegation cannot loop.  In a heap built by [new Router()],
    [add] and [child], a delegating step is only ever the one [child]
    pushes, and it leads from a router to a child allocated after it; so
    the [child.exec] calls nested in one [exec] are fewer than the routers
    of the heap.  Hence, for steps that settle (a function step or a
    dispatched action of this development is one transition that fulfils
    or rejects; a promise left pending for ever, or a step that calls back
    into the router, is not expressible), [exec] settles, with its promise
    fulfilled with the bag: a nesting budget of one more than the number
    of routers is enough. *)
Theorem built_exec_settles H (ctx : Store) this path st :
  Built pathToRegexp H →
  delegates_upward H ∧
  ∃ s' b, exec (S (length H)) H ctx this path st = Some (Fulfilled b, (s', b)).
Proof.
  intros HB. split; [by apply Built_upward|].
  destruct (exec_settles H ctx (S (length H)) this path st) as [[r [s' b]] Hex].
  { by apply Built_upward. }
  { lia. }
  exists s', b. by rewrite Hex, (exec_settles_fulfilled _ _ _ _ _ _ _ _ Hex).
Qed.

Lemma string_app_ends_slash (a c s : string) :
  a +:+ c = s +:+ "/" →
  (c = "" ∧ a = s +:+ "/") ∨ ∃ s', c = s' +:+ "/".
Proof.
  revert s. induction a as [|x a IH]; intros s.
  - intros Heq. right. by exists s.
  - cbv [String.append]; fold String.append. destruct s as [|y s].
    + cbv [String.append]. intros [= -> Heq]. left.
      destruct a; [|done]. by destruct c.
    + cbv [String.append]; fold String.append. intros [= -> Heq].
      destruct (IH _ Heq) as [[-> ->]|?]; [by left|by right].
Qed.

Lemma no_trailing_slash_app (a c : string) :
  no_trailing_slash a → no_trailing_slash c → no_trailing_slash (a +:+ c).
Proof.
  intros Ha Hc s Heq.
  destruct (string_app_ends_slash _ _ _ Heq) as [[_ Heq']|[s' Heq']].
  - by apply (Ha s).
  - by apply (Hc s').
Qed.

Lemma Built_basePath H r (R : Router) :
  Built pathToRegexp H → H !! r = Some R → no_trailing_slash (basePath R).
Proof.
  intros HB. revert r R.
  induction HB as [|H _ IH|H this tpl steps _ IH [P HP] Hsteps
                   |H this tpl steps _ IH [P HP] Hsteps]; intros r R.
  - done.
  - intros [[_ Hr]|[_ <-]]%lookup_snoc_Some; [by apply (IH r)|by intros []].
  - rewrite (add_heap _ _ _ _ _ HP). simpl.
    destruct (decide (this = r)) as [<-|Hr].
    + rewrite list_lookup_insert_eq by (by eapply lookup_lt_Some).
      intros [= <-]. simpl. by apply (IH this).
    + rewrite list_lookup_insert_ne by done. apply IH.
  - rewrite (child_heap _ _ _ _ _ _ HP). simpl.
    destruct (decide (this = r)) as [<-|Hr].
    + rewrite list_lookup_insert_eq
        by (rewrite length_app; apply lookup_lt_Some in HP; lia).
      intros [= <-]. simpl. by apply (IH this).
    + rewrite list_lookup_insert_ne by done.
      intros [[_ Hr']|[_ <-]]%lookup_snoc_Some; [by apply (IH r)|]. simpl.
      apply no_trailing_slash_app; intros s; apply normalizePath_no_trailing_slash.
Qed.

(** X12.  In a heap built by [new Router()], [add] and [child], no
    router's [basePath] ends with a slash. *)
Theorem built_basePath_no_trailing_slash H r (R : Router) :
  Built pathToRegexp H → H !! r = Some R → no_trailing_slash (basePath R).
Proof. apply Built_basePath. Qed.

(** X13.  In such a heap the child's [basePath] is the parent's followed by
    the template without its trailing slashes, so base paths add up along
    the chain of parents. *)
Theorem built_child_basePath H this (P : Router) tpl steps :
  Built pathToRegexp H →
  H !! this = Some P →
  ∃ C, (child pathToRegexp H this tpl steps).1
         !! (child pathToRegexp H this tpl steps).2 = Some C ∧
       basePath C = basePath P +:+ normalizePath tpl ∧
       parentRouter C = Some this ∧
       baseRoute C = Some (this, length (routes P)).
Proof.
  intros HB HP. rewrite (child_heap _ _ _ _ _ _ HP). simpl.
  eexists. split.
  - rewrite list_lookup_insert_ne by (apply lookup_lt_Some in HP; lia).
    by apply list_lookup_middle.
  - simpl. split; [|done].
    by rewrite (normalizePath_fixed _
                  (Built_basePath H this P HB HP)).
Qed.

End MoreRegistration.

(** *** More on Router.exec *)

Lemma match_not_found H this path params :
  Forall (no_match path) (routes_of H this) →
  match_ H this path params =
    <["route" := VUndefined]> (<["router" := VRouter this]> params).
Proof.
  intros Hall. unfold match_. by rewrite find_route_none.
Qed.

Lemma exec_no_route fuel H (ctx : Store) this path s params :
  Forall (no_match path) (routes_of H this) →
  exec (S fuel) H ctx this path (s, params) =
    Some (Fulfilled
            (<["error" := VError NotFound]>
               (<["route" := VUndefined]> (<["router" := VRouter this]> params))),
          (s, <["error" := VError NotFound]>
                (<["route" := VUndefined]> (<["router" := VRouter this]> params)))).
Proof.
  intros Hall. rewrite exec_unfold. cbv zeta.
  rewrite (match_not_found _ _ _ _ Hall). unfold get.
  by rewrite lookup_insert_eq.
Qed.

(** X14.  When no route of the router matches the path, [exec] runs no step
    and does not touch the store: its promise is fulfilled with the bag it
    was given plus [router], an [undefined] [route] and the error
    [Error('Not found')]. *)
Theorem exec_not_found fuel H (ctx : Store) this path s params :
  Forall (no_match path) (routes_of H this) →
  exec (S fuel) H ctx this path (s, params) =
    Some (Fulfilled
            (<["error" := VError NotFound]>
               (<["route" := VUndefined]> (<["router" := VRouter this]> params))),
          (s, <["error" := VError NotFound]>
                (<["route" := VUndefined]> (<["router" := VRouter this]> params)))).
Proof. apply exec_no_route. Qed.

(** X15.  When every step of the matched route is fulfilled, [exec] is
    fulfilled with the bag exactly as the last step left it: [exec] itself
    writes [error] only on a failure. *)
Theorem exec_all_fulfilled fuel H (ctx : Store) this path s params i R vs s1 b1 :
  get (match_ H this path params) "route" = VRoute this i →
  routes_of H this !! i = Some R →
  mapSeries (run_step (exec fuel H ctx) ctx) (route_steps R)
    (s, match_ H this path params) = Some (Fulfilled vs, (s1, b1)) →
  exec (S fuel) H ctx this path (s, params) = Some (Fulfilled b1, (s1, b1)).
Proof.
  intros Hroute HR Hsteps.
  rewrite (exec_matched _ _ _ _ _ _ _ _ _ Hroute HR).
  unfold return_params, catch_, then_ at 1. by rewrite Hsteps.
Qed.

(** X16.  A delegating step whose child router has no route for the rest
    of the path is fulfilled all the same: the error [Error('Not found')]
    is set by the child's [exec], the bag names the child as [router],
    [route] is [undefined], and the store is untouched.  The series of the
    parent goes on. *)
Theorem delegate_not_found fuel H (ctx : Store) c s params :
  Forall (no_match (take_rest params).1) (routes_of H c) →
  let b := <["error" := VError NotFound]>
             (<["route" := VUndefined]>
                (<["router" := VRouter c]> (take_rest params).2)) in
  run_step (exec (S fuel) H ctx) ctx (StepDelegate c) (s, params)
    = Some (Fulfilled (Some b), (s, b)).
Proof.
  intros Hall b. subst b. unfold run_step.
  destruct (take_rest params) as [path params']. cbn [fst snd] in *.
  unfold then_. by rewrite exec_no_route by done.
Qed.

(** X17.  The delegating step on a bag that lacks the capture it looks for
    (the property named [length - 1]): the child is asked for the path
    ["/undefined"], and [length] is decremented all the same. *)
Theorem take_rest_missing_capture params (n : nat) :
  params !! "length" = Some (VNum (Z.of_nat n + 1)) →
  params !! pretty n = None →
  take_rest params = ("/undefined", <["length" := VNum (Z.of_nat n)]> params).
Proof.
  intros Hlen Hn. unfold take_rest, get. rewrite Hlen. simpl.
  replace (Z.of_nat n + 1 - 1)%Z with (Z.of_nat n) by lia.
  assert (pretty (Z.of_nat n) = pretty n) as ->.
  { unfold pretty at 1, pretty_Z. destruct n; [done|]. simpl.
    unfold pretty at 2, pretty_nat. unfold pretty at 1, pretty_positive.
    by f_equal. }
  rewrite lookup_insert_ne by (apply not_eq_sym; by apply pretty_nat_ne).
  rewrite Hn. simpl. f_equal. apply delete_id.
  by rewrite lookup_insert_ne by (apply not_eq_sym; by apply pretty_nat_ne).
Qed.

(** *** More on the navigation module *)

Section MoreController.

Variable H : Heap.
Variable router : RouterId.
Variable store : Store.
Variable post : Hook.

Local Abbreviation nav := (navigate H router).
Local Abbreviation adv := (advance H store post).
Local Abbreviation step1 := (step H router store post).
Local Abbreviation runs := (run H router store post).

(** A callback either leaves the module's state and [location.hash] alone,
    or it is the second [tap] of the navigation that holds the current
    handle, which commits. *)
Lemma advance_commits_or_not i (w : World) :
  (state (adv i w) = state w ∧ location_hash (adv i w) = location_hash w) ∨
  (∃ t, tasks w !! i = Some t ∧ task_phase t = Posted ∧
        handle_id (currentHandle w) = handle_id (task_handle t) ∧
        state (adv i w)
          = navigated (state w) (handle_path (task_handle t)) (task_params t) ∧
        location_hash (adv i w) = "#" +:+ handle_path (task_handle t)).
Proof.
  unfold advance. destruct (tasks w !! i) as [t|] eqn:Ht; [|by left].
  destruct (task_phase t) as [[|[|st more] rest]| |r] eqn:Hphase.
  - left. by destruct (run_post _ _ _).
  - by left.
  - left. by destruct (pipeline_step _ _ _ _) as [[s params] frames'].
  - unfold finish. case_decide; [|by left]. right. by exists t.
  - by left.
Qed.

Lemma last_is_current_task i t (w : World) :
  handles_in_order w → latest_is_current w →
  tasks w !! i = Some t →
  handle_id (currentHandle w) = handle_id (task_handle t) →
  task_handle t = currentHandle w.
Proof.
  intros [_ Hord] Hlast Ht Hid. unfold latest_is_current in Hlast.
  destruct (last (tasks w)) as [t'|] eqn:Hl.
  - rewrite last_lookup in Hl.
    assert (handle_id (task_handle t') = S (pred (length (tasks w)))) as Hid'
      by by apply Hord.
    assert (handle_id (task_handle t) = S i) as Hid'' by by apply Hord.
    assert (i = pred (length (tasks w))) as -> by (rewrite <- Hlast in Hid; lia).
    congruence.
  - apply last_None in Hl. by rewrite Hl in Ht.
Qed.

Lemma navigate_settled path (w : World) :
  settled_world w → settled_world (nav path w).
Proof.
  intros (Hord & Hlast & Hst).
  destruct (decide (handle_path (currentHandle w) = path)) as [Hp|Hp].
  { by rewrite navigate_same. }
  split; [by apply navigate_in_order|].
  destruct (navigate_new H router path w Hp) as (t & -> & Ht).
  split; [|by left]. unfold latest_is_current. simpl. by rewrite last_snoc.
Qed.

Lemma advance_settled i (w : World) :
  settled_world w → settled_world (adv i w).
Proof.
  intros (Hord & Hlast & Hst).
  split; [by apply advance_in_order|].
  destruct (advance_frame H store post i w) as (Hc & Hl & Hh). split.
  - unfold latest_is_current in *. rewrite Hc.
    destruct (last (tasks (adv i w))) as [t'|] eqn:Hlast'.
    + rewrite last_lookup, Hl in Hlast'.
      destruct (Hh _ _ Hlast') as (t0 & Ht0 & ->).
      rewrite <- last_lookup in Ht0. by rewrite Ht0 in Hlast.
    + apply last_None in Hlast'. apply (f_equal length) in Hlast'.
      rewrite Hl in Hlast'. destruct (tasks w); [done|done].
  - rewrite Hc.
    destruct (advance_commits_or_not i w)
      as [[-> _]|(t & Ht & _ & Hid & -> & _)]; [done|].
    right. simpl. by rewrite (last_is_current_task i t w).
Qed.

Lemma step_settled ev (w : World) :
  settled_world w → settled_world (step1 ev w).
Proof.
  destruct ev as [path|hash|i]; simpl;
    [apply navigate_settled| |apply advance_settled].
  intros ?. by apply navigate_settled.
Qed.

Lemma run_settled evs (w : World) :
  settled_world w → settled_world (runs evs w).
Proof.
  revert w. induction evs as [|ev evs IH]; intros w Hw; [done|].
  simpl. by apply IH, step_settled.
Qed.

Lemma init_settled hash (s0 : AppState) : settled_world (init hash s0).
Proof. split; [apply init_in_order|]. split; [done|by right]. Qed.

(** X18.  Whatever has happened, the current handle is the handle of the
    navigation started last (the initial handle if none was started), and
    it has the address given to that navigation. *)
Theorem current_handle_is_latest hash (s0 : AppState) evs :
  let w := runs evs (init hash s0) in
  latest_is_current w ∧ handle_id (currentHandle w) = length (tasks w).
Proof.
  simpl. destruct (run_settled evs _ (init_settled hash s0))
    as ([Hcur Hord] & Hlast & _).
  split; [done|]. unfold latest_is_current in Hlast.
  destruct (last (tasks _)) as [t|] eqn:Hl.
  - rewrite <- Hlast. rewrite last_lookup in Hl.
    rewrite (Hord _ _ Hl). apply lookup_lt_Some in Hl. lia.
  - apply last_None in Hl. rewrite Hl, Hlast. done.
Qed.

(** X19.  Whatever has happened, either a navigation is in progress or the
    module's [path] is the path of the current handle: a path that was
    superseded is never the committed one while [progress] is off. *)
Theorem committed_path_is_current hash (s0 : AppState) evs :
  let w := runs evs (init hash s0) in
  progress (state w) = true ∨
  state_path (state w) = handle_path (currentHandle w).
Proof. simpl. by destruct (run_settled evs _ (init_settled hash s0)) as (_ & _ & ?). Qed.

End MoreController.

(** *** [router.update] *)

Lemma strip_leading_no_mark hash : no_leading_mark (strip_leading hash).
Proof.
  induction hash as [|c hash IH]; [done|]. simpl.
  destruct (Ascii.eqb_spec c "#") as [->|Hhash]; [done|].
  destruct (Ascii.eqb_spec c "/") as [->|Hslash]; [done|]. done.
Qed.

Lemma strip_leading_fixed rest : no_leading_mark rest → strip_leading rest = rest.
Proof.
  destruct rest as [|c rest]; [done|]. intros [Hhash Hslash]. simpl.
  destruct (Ascii.eqb_spec c "#") as [->|_]; [done|].
  by destruct (Ascii.eqb_spec c "/") as [->|_].
Qed.

(** X20.  The path [update] hands to [navigate] is a slash followed by the
    hash without its leading [#] and [/] characters; writing that path back
    as [location.hash = '#' + path] and reading it again gives the same
    path. *)
Theorem update_path_round_trip hash :
  (∃ rest, update_path hash = "/" +:+ rest ∧ no_leading_mark rest) ∧
  update_path ("#" +:+ update_path hash) = update_path hash.
Proof.
  split.
  - exists (strip_leading hash). split; [done|apply strip_leading_no_mark].
  - unfold update_path. cbv [String.append]; fold String.append. simpl.
    by rewrite (strip_leading_fixed _ (strip_leading_no_mark hash)).
Qed.

Section UpdateTheory.

Variable H : Heap.
Variable router : RouterId.
Variable store : Store.
Variable post : Hook.

(** X21.  The guard at work: when the navigation holding the current handle
    commits a path of the form [update] produces, the [hashchange] that its
    own write to [location.hash] causes starts nothing: [update] finds the
    path of the current handle and returns. *)
Theorem commit_hashchange_is_ignored i t (w : World) rest :
  tasks w !! i = Some t →
  task_phase t = Posted →
  task_handle t = currentHandle w →
  handle_path (task_handle t) = "/" +:+ rest →
  no_leading_mark rest →
  let w' := advance H store post i w in
  location_hash w' = "#/" +:+ rest ∧
  state_path (state w') = "/" +:+ rest ∧
  step H router store post (Hashchange (location_hash w')) w' = w'.
Proof.
  intros Ht Hphase Hcur Hpath Hrest w'. subst w'.
  unfold advance. rewrite Ht, Hphase. unfold finish.
  rewrite decide_True by (by rewrite Hcur). simpl. rewrite Hpath.
  split_and!; [done..|].
  unfold update. simpl. cbv [String.append]; fold String.append. simpl.
  rewrite (strip_leading_fixed _ Hrest).
  apply navigate_same. simpl. by rewrite <- Hcur.
Qed.

(** X22.  The other edge: a committed path that is not of that form (one
    without the leading slash, say) is read back differently, and the
    [hashchange] of the commit starts a second navigation, to the path as
    [update] reads it. *)
Theorem commit_hashchange_renavigates i t (w : World) :
  tasks w !! i = Some t →
  task_phase t = Posted →
  task_handle t = currentHandle w →
  update_path ("#" +:+ handle_path (task_handle t)) ≠ handle_path (task_handle t) →
  let w' := advance H store post i w in
  let w'' := step H router store post (Hashchange (location_hash w')) w' in
  length (tasks w'') = S (length (tasks w')) ∧
  handle_path (currentHandle w'')
    = update_path ("#" +:+ handle_path (task_handle t)) ∧
  progress (state w'') = true.
Proof.
  intros Ht Hphase Hcur Hpath w' w''. subst w' w''.
  unfold advance. rewrite Ht, Hphase. unfold finish.
  rewrite decide_True by (by rewrite Hcur).
  cbn [step location_hash]. unfold update. cbn [location_hash].
  change ("/" +:+ strip_leading ("#" +:+ handle_path (task_handle t)))
    with (update_path ("#" +:+ handle_path (task_handle t))).
  set (w1 := MkWorld _ _ _ _ _).
  destruct (navigate_new H router
              (update_path ("#" +:+ handle_path (task_handle t))) w1)
    as (t' & -> & _).
  { simpl. rewrite <- Hcur. by apply not_eq_sym. }
  simpl. rewrite length_app. simpl. split_and!; [lia|done..].
Qed.

End UpdateTheory.

(** *** [navigate] carries out [exec] *)

Section NavigateExec.

Variable H : Heap.
Variable router : RouterId.
Variable store : Store.
Variable post : Hook.

Lemma pipeline_run_nil n (σ : St) :
  pipeline_run H store n σ [] = (σ, []).
Proof. induction n as [|n IH]; [done|]. simpl. apply IH. Qed.

(** The callbacks of one navigation, with no other event in between, take
    its pipeline as far as [pipeline_run] does. *)
Lemma advance_pipeline n i t (w : World) frames s' b' :
  tasks w !! i = Some t →
  task_phase t = Executing frames →
  pipeline_run H store n (rootState w, task_params t) frames = ((s', b'), []) →
  ∃ m, run H router store post (replicate m (Advance i)) w =
         set_task i {| task_handle := task_handle t; task_params := b';
                       task_phase := Executing [] |} s' w.
Proof.
  revert t w frames. induction n as [|n IH]; intros t w frames Ht Hphase Hrun.
  { injection Hrun as <- <- ->. exists 0. simpl. unfold set_task.
    destruct w as [c st h r ts], t as [th tp tph]. simpl in *. subst tph.
    by rewrite list_insert_id. }
  destruct frames as [|frame rest].
  { rewrite pipeline_run_nil in Hrun. injection Hrun as <- <-.
    exists 0. simpl. unfold set_task.
    destruct w as [c st h r ts], t as [th tp tph]. simpl in *. subst tph.
    by rewrite list_insert_id. }
  cbn [pipeline_run] in Hrun.
  destruct (pipeline_step H store (rootState w, task_params t) (frame :: rest))
    as [[s1 b1] frames1] eqn:Hstep.
  set (t1 := {| task_handle := task_handle t; task_params := b1;
                task_phase := Executing frames1 |}).
  assert (advance H store post i w = set_task i t1 s1 w) as Hadv.
  { unfold advance. rewrite Ht, Hphase, Hstep. by destruct frame. }
  destruct (IH t1 (set_task i t1 s1 w) frames1) as [m Hm].
  { simpl. apply list_lookup_insert_eq. by eapply lookup_lt_Some. }
  { done. }
  { exact Hrun. }
  exists (S m). simpl. rewrite Hadv, Hm. unfold set_task. simpl.
  by rewrite list_insert_insert_eq.
Qed.

(** X23.  [navigate] carries out [exec]: when [navigate(path)] passes the
    guard, [exec] on the root router settles with store [s1] and bag [b1],
    and the hook returns a promise that settles with [r], leaving store
    [s2] and bag [b2], then the callbacks of this navigation alone bring
    the module to the committed state: [progress] off, [path] the
    navigated path, [params] the bag [b2] (with the hook's error, if it was
    rejected), and [location.hash] the path after [#]. *)
Theorem navigate_commits_exec_result fuel path (w : World) r1 s1 b1 r s2 b2 :
  handle_path (currentHandle w) ≠ path →
  exec fuel H store router path (rootState w, ∅) = Some (r1, (s1, b1)) →
  post s1 b1 = (HookReturnsPromise r, s2, b2) →
  ∃ n,
    let w' := run H router store post (replicate n (Advance (length (tasks w))))
                (navigate H router path w) in
    state w' =
      {| progress := false; state_path := path;
         state_params := match r with
                         | Fulfilled _ => b2
                         | Rejected e => <["error" := VError e]> b2
                         end |} ∧
    location_hash w' = "#" +:+ path ∧
    rootState w' = s2 ∧
    currentHandle w' = {| handle_id := S (length (tasks w)); handle_path := path |}.
Proof.
  intros Hp Hexec Hpost.
  destruct (exec_pipeline H store _ _ _ _ _ _ _ Hexec []) as [n Hn].
  rewrite app_nil_r in Hn.
  set (i := length (tasks w)).
  set (handle := {| handle_id := S i; handle_path := path |}).
  unfold navigate. rewrite decide_False by done.
  destruct (start_exec H router path ∅) as [b0 frames0] eqn:Hstart.
  simpl in Hn. fold i. fold handle.
  set (t0 := {| task_handle := handle; task_params := b0;
                task_phase := Executing frames0 |}).
  set (w0 := MkWorld handle _ _ _ _).
  destruct (advance_pipeline n i t0 w0 frames0 s1 b1) as [m Hm]; [|done|done|].
  { by apply list_lookup_middle. }
  set (t1 := @MkTask AppState (task_handle t0) b1 (Executing [])) in Hm.
  set (w1 := set_task i t1 s1 w0) in Hm.
  assert (tasks w1 !! i = Some t1) as Ht1.
  { simpl. apply list_lookup_insert_eq. rewrite length_app. simpl. lia. }
  pose proof (advance_post_promise H store post i t1 w1 r s2 b2 Ht1 eq_refl Hpost)
    as Hhook.
  exists (m + 2). rewrite replicate_add, run_app, Hm. simpl. rewrite Hhook.
  unfold advance. simpl.
  rewrite list_lookup_insert_eq
    by (rewrite length_insert, length_app; simpl; lia).
  simpl. unfold finish. simpl. rewrite decide_True by done. simpl.
  by destruct r.
Qed.

End NavigateExec.

(** *** [router.start] *)

(** X24.  The guard cannot fire on the first [update]: the initial handle
    has the empty path and [update] always asks for a path that starts with
    a slash.  So [start] always begins a navigation, whatever the hash. *)
Theorem start_begins_navigation H router hash (s0 : AppState) :
  let w := start H router (init hash s0) in
  length (tasks w) = 1 ∧
  progress (state w) = true ∧
  currentHandle w = {| handle_id := 1; handle_path := update_path hash |}.
Proof.
  unfold start.
  change (update H router (init hash s0))
    with (navigate H router (update_path hash) (init hash s0)).
  destruct (navigate_new H router (update_path hash) (init hash s0))
    as (t & -> & _); [done|]. done.
Qed.

(** *** The earlier revision *)

Lemma strip_trailing_eq path : strip_trailing path = normalizePath path.
Proof.
  destruct (normalizePath_slashes path) as [n Hn].
  unfold strip_trailing. rewrite Hn at 1 2.
  rewrite string_length_app.
  assert (String.length (slashes n) = n) as ->.
  { clear. induction n as [|n IH]; [done|]. simpl. by rewrite IH. }
  rewrite strip_loop_slashes by done. apply strip_loop_base.
  intros s. apply normalizePath_no_trailing_slash.
Qed.

Section OldRevision.

Variable pathToRegexp : string → RegExp.

(** X25.  On a heap built by [new Router()], [add] and [child], the
    earlier [child] and the present one register the same route on the
    parent and give the child the same address, base path, parent and
    routes: the heaps differ in the child's [baseRoute] only, which the
    earlier revision did not have. *)
Theorem child_old_agrees H this (P : Router) tpl steps :
  Built pathToRegexp H →
  H !! this = Some P →
  child_old pathToRegexp H this tpl steps =
    (alter (λ C, {| basePath := basePath C; baseRoute := None;
                    parentRouter := parentRouter C;
                    storeModule := storeModule C; routes := routes C |})
       (length H) (child pathToRegexp H this tpl steps).1,
     (child pathToRegexp H this tpl steps).2).
Proof.
  intros HB HP. rewrite (child_heap _ _ _ _ _ _ HP). simpl.
  assert (this < length H) as Hlt by (by eapply lookup_lt_Some).
  unfold child_old. rewrite strip_trailing_eq, HP. simpl.
  rewrite (lookup_app_l_Some _ [new_Router] _ _ HP). simpl.
  unfold add.
  rewrite list_lookup_alter_ne by lia.
  rewrite (lookup_app_l_Some _ [new_Router] _ _ HP). simpl. f_equal.
  rewrite (normalizePath_fixed _ (Built_basePath pathToRegexp H this P HB HP)).
  apply list_eq; intros j.
  destruct (decide (j = this)) as [->|Hj].
  - rewrite list_lookup_alter_ne by lia.
    by rewrite !list_lookup_insert_eq
      by (rewrite ?length_alter, length_app; simpl; lia).
  - rewrite list_lookup_insert_ne by done.
    destruct (decide (j = length H)) as [->|Hj'].
    + rewrite !list_lookup_alter_eq, list_lookup_insert_ne by done.
      by rewrite !list_lookup_middle.
    + rewrite !list_lookup_alter_ne, list_lookup_insert_ne by done.
      destruct (decide (j < length H)).
      * by rewrite !lookup_app_l.
      * rewrite !lookup_ge_None_2; [done|rewrite length_app; simpl; lia..].
Qed.

End OldRevision.

Section OldNavigate.

Variable H : Heap.
Variable router : RouterId.
Variable store : Store.
Variable post : Hook.

Lemma advance_old_pipeline n i t (w : World) frames s' b' :
  tasks w !! i = Some t →
  task_phase t = Executing frames →
  pipeline_run H store n (rootState w, task_params t) frames = ((s', b'), []) →
  ∃ m, Nat.iter m (advance_old H store post i) w =
         set_task i {| task_handle := task_handle t; task_params := b';
                       task_phase := Executing [] |} s' w.
Proof.
  revert t w frames. induction n as [|n IH]; intros t w frames Ht Hphase Hrun.
  { injection Hrun as <- <- ->. exists 0. simpl. unfold set_task.
    destruct w as [c st h r ts], t as [th tp tph]. simpl in *. subst tph.
    by rewrite list_insert_id. }
  destruct frames as [|frame rest].
  { rewrite pipeline_run_nil in Hrun. injection Hrun as <- <-.
    exists 0. simpl. unfold set_task.
    destruct w as [c st h r ts], t as [th tp tph]. simpl in *. subst tph.
    by rewrite list_insert_id. }
  cbn [pipeline_run] in Hrun.
  destruct (pipeline_step H store (rootState w, task_params t) (frame :: rest))
    as [[s1 b1] frames1] eqn:Hstep.
  set (t1 := {| task_handle := task_handle t; task_params := b1;
                task_phase := Executing frames1 |}).
  assert (advance_old H store post i w = set_task i t1 s1 w) as Hadv.
  { unfold advance_old, advance. rewrite Ht, Hphase, Hstep. by destruct frame. }
  destruct (IH t1 (set_task i t1 s1 w) frames1) as [m Hm].
  { simpl. apply list_lookup_insert_eq. by eapply lookup_lt_Some. }
  { done. }
  { exact Hrun. }
  exists (S m). rewrite Nat.iter_succ_r, Hadv, Hm. unfold set_task. simpl.
  by rewrite list_insert_insert_eq.
Qed.

(** X26.  In the earlier revision the default hook did no harm: when the
    hook returns a value that is no promise (as [() => {}] does) or a
    promise that is fulfilled, the callbacks of the navigation alone bring
    the module to the committed state, with the bag [exec] was fulfilled
    with as the hook left it. *)
Theorem old_navigate_commits_exec_result fuel path (w : World) r1 s1 b1 r s2 b2 :
  handle_path (currentHandle w) ≠ path →
  exec fuel H store router path (rootState w, ∅) = Some (r1, (s1, b1)) →
  post s1 b1 = (r, s2, b2) →
  (∀ e, r ≠ HookThrows e ∧ r ≠ HookReturnsPromise (Rejected e)) →
  ∃ n,
    let w' := Nat.iter n (advance_old H store post (length (tasks w)))
                (navigate H router path w) in
    state w' = {| progress := false; state_path := path; state_params := b2 |} ∧
    location_hash w' = "#" +:+ path ∧
    rootState w' = s2.
Proof.
  intros Hp Hexec Hpost Hr.
  destruct (exec_pipeline H store _ _ _ _ _ _ _ Hexec []) as [n Hn].
  rewrite app_nil_r in Hn.
  set (i := length (tasks w)).
  set (handle := {| handle_id := S i; handle_path := path |}).
  unfold navigate. rewrite decide_False by done.
  destruct (start_exec H router path ∅) as [b0 frames0] eqn:Hstart.
  simpl in Hn. fold i. fold handle.
  set (t0 := {| task_handle := handle; task_params := b0;
                task_phase := Executing frames0 |}).
  set (w0 := MkWorld handle _ _ _ _).
  destruct (advance_old_pipeline n i t0 w0 frames0 s1 b1) as [m Hm]; [|done|done|].
  { by apply list_lookup_middle. }
  set (t1 := @MkTask AppState (task_handle t0) b1 (Executing [])) in Hm.
  set (w1 := set_task i t1 s1 w0) in Hm.
  set (t2 := @MkTask AppState handle b2 Posted).
  assert (advance_old H store post i w1 = set_task i t2 s2 w1) as Hhook.
  { unfold advance_old. simpl.
    rewrite list_lookup_insert_eq by (rewrite length_app; simpl; lia). simpl.
    unfold run_post_old. simpl. rewrite Hpost.
    destruct r as [e|v|[[]|e]]; try done; by destruct (Hr e). }
  exists (2 + m). rewrite Nat.iter_add, Hm.
  cbn [Nat.iter nat_rect]. rewrite Hhook.
  unfold advance_old, advance. simpl.
  rewrite list_lookup_insert_eq
    by (rewrite length_insert, length_app; simpl; lia).
  simpl. unfold finish. simpl. by case_decide.
Qed.

(** X27.  In the earlier revision a hook that throws, or whose promise is
    rejected, ends the navigation: the [catch] handler throws a
    ReferenceError, the hook's error is not recorded in the bag, and no
    later callback of that navigation commits. *)
Theorem old_hook_failure_aborts i t (w : World) r s params n :
  tasks w !! i = Some t →
  task_phase t = Executing [] →
  post (rootState w) (task_params t) = (r, s, params) →
  (∃ e, r = HookThrows e ∨ r = HookReturnsPromise (Rejected e)) →
  Nat.iter (S n) (advance_old H store post i) w =
    set_task i {| task_handle := task_handle t; task_params := params;
                  task_phase := Done (Rejected params_not_defined) |} s w.
Proof.
  intros Ht Hphase Hpost [e Hr].
  induction n as [|n IH].
  - simpl. unfold advance_old, run_post_old. rewrite Ht, Hphase, Hpost.
    by destruct Hr as [-> | ->].
  - rewrite Nat.iter_succ, IH. unfold advance_old, advance. simpl.
    by rewrite list_lookup_insert_eq by (by eapply lookup_lt_Some).
Qed.

End OldNavigate.

End Theory.

(** * Instances *)



(** Claim C6 does not hold for a pattern with a capture named [length]:
    the pattern has no unnamed capture, and after the match [length] holds
    the captured text. *)
Lemma match_length_named_length_counterexample :
  ∃ R, routes_of length_heap 0 !! 0 = Some R ∧
       get (match_ length_heap 0 "/abc" ∅) "route" = VRoute 0 0 ∧
       numeric_names (re_keys (route_re R)) = [] ∧
       match_ length_heap 0 "/abc" ∅ !! "length" = Some (VStr "abc") ∧
       match_ length_heap 0 "/abc" ∅ !! "length"
         ≠ Some (VNum (positional_count (re_keys (route_re R)))).
Proof.
  exists (new_Route compile_pattern "" "/:length" []).
  split_and!; [reflexivity..|]. by vm_compute.
Qed.

Lemma match_length_counts_positionals_witness :
  let R := new_Route compile_pattern "" "/users/:id/*" [@StepDelegate nat 1] in
  get (match_ nested_heap 0 "/users/42/posts/7" ∅) "route" = VRoute 0 0 ∧
  routes_of nested_heap 0 !! 0 = Some R ∧
  no_key_named "length" (re_keys (route_re R)) ∧
  ascending (numeric_names (re_keys (route_re R))) ∧
  match_ nested_heap 0 "/users/42/posts/7" ∅ !! "length" = Some (VNum 1).
Proof.
  intros R.
  assert (get (match_ nested_heap 0 "/users/42/posts/7" ∅) "route" = VRoute 0 0)
    as Hroute by reflexivity.
  assert (routes_of nested_heap 0 !! 0 = Some R) as HR by reflexivity.
  assert (no_key_named "length" (re_keys (route_re R))) as Hnamed.
  { repeat constructor; discriminate. }
  assert (ascending (numeric_names (re_keys (route_re R)))) as Hasc.
  { repeat constructor. }
  split_and!; [done..|].
  exact (match_length_counts_positionals nested_heap 0 "/users/42/posts/7" ∅ 0 R
           Hroute HR Hnamed Hasc).
Defined.

Lemma exec_stops_at_first_failure_witness :
  let params0 := match_ failing_heap 0 "/reports/2016" ∅ in
  let b1 := {["kind" := VStr "report"]} ∪ params0 in
  get params0 "route" = VRoute 0 0 ∧
  routes_of failing_heap 0 !! 0 = Some report_route ∧
  route_steps report_route =
    [StepObject {["kind" := VStr "report"]}; StepString "load"]
      ++ StepFunction (failing_step Boom)
      :: [StepFunction count_step; StepObject {["late" := VBool true]}] ∧
  exec 1 failing_heap example_store 0 "/reports/2016" (0, ∅) =
    Some (Fulfilled (<["error" := VError Boom]> b1),
          (2, <["error" := VError Boom]> b1)).
Proof.
  intros params0 b1.
  assert (get params0 "route" = VRoute 0 0) as Hroute by reflexivity.
  assert (routes_of failing_heap 0 !! 0 = Some report_route) as HR by reflexivity.
  assert (route_steps report_route =
    [StepObject {["kind" := VStr "report"]}; StepString "load"]
      ++ StepFunction (failing_step Boom)
      :: [StepFunction count_step; StepObject {["late" := VBool true]}])
    as Hsteps by reflexivity.
  split_and!; [done..|].
  apply (exec_stops_at_first_failure 0 failing_heap example_store 0
           "/reports/2016" 0 ∅ 0 report_route _ _ _ [None; None] 1 b1 Boom 2 b1
           Hroute HR Hsteps); reflexivity.
Defined.

Lemma exec_failure_keeps_mutations_witness :
  let params0 := match_ failing_heap 0 "/reports/2016" ∅ in
  let b1 := {["kind" := VStr "report"]} ∪ params0 in
  ∃ b', exec 1 failing_heap example_store 0 "/reports/2016" (0, ∅)
          = Some (Fulfilled b', (2, b')) ∧
        b' !! "error" = Some (VError Boom) ∧
        b' !! "year" = Some (VStr "2016") ∧
        b' !! "kind" = Some (VStr "report") ∧
        b' !! "late" = None.
Proof.
  intros params0 b1.
  destruct (exec_failure_keeps_mutations 0 failing_heap example_store 0
              "/reports/2016" 0 ∅ 0 report_route
              [StepObject {["kind" := VStr "report"]}; StepString "load"]
              (StepFunction (failing_step Boom))
              [StepFunction count_step; StepObject {["late" := VBool true]}]
              [None; None] 1 b1 Boom 2 b1)
    as (b' & Hexec & Herr & Hkeep); [reflexivity..|].
  exists b'. split_and!; [done..| | |].
  - rewrite Hkeep by done. reflexivity.
  - rewrite Hkeep by done. reflexivity.
  - rewrite Hkeep by done. reflexivity.
Defined.

(** Claim C3, on the code as it is.  The object step [{id: 'anonymous'}]
    replaces the [id] captured from the path, and the object
    [{role: 'member'}] that the function step resolves to is not merged
    into the bag. *)
Theorem object_step_overwrites_capture :
  match_ defaults_heap 0 "/users/42" ∅ !! "id" = Some (VStr "42") ∧
  ∃ b, exec 1 defaults_heap example_store 0 "/users/42" (0, ∅)
         = Some (Fulfilled b, (0, b)) ∧
       b !! "id" = Some (VStr "anonymous") ∧
       b !! "role" = None ∧
       b !! "error" = None.
Proof.
  split; [reflexivity|]. eexists. split_and!; reflexivity.
Qed.

Lemma child_delegates_rest_witness :
  ∃ H' : list (@Router nat),
    child compile_pattern [new_Router] 0 "/users/:id/" [] = (H', 1) ∧
    routes_of H' 0 =
      [ {| route_path := "/users/:id/*";
           route_re := compile_pattern "/users/:id/*";
           route_steps := [StepDelegate 1] |} ] ∧
    exec 2 H' example_store 0 "/users/42/posts/7" (0, ∅) =
      exec 1 H' example_store 1 "/posts/7"
        (0, delete "0" (<["length" := VNum 0]> (match_ H' 0 "/users/42/posts/7" ∅))) ∧
    ∃ b, exec 2 H' example_store 0 "/users/42/posts/7" (0, ∅)
           = Some (Fulfilled b, (0, b)) ∧
         b !! "id" = Some (VStr "42") ∧ b !! "0" = None ∧
         b !! "router" = Some (VRouter 1) ∧
         b !! "error" = Some (VError NotFound).
Proof.
  destruct (@child_delegates_rest nat compile_pattern [new_Router] 0 new_Router
              "/users/:id/" [] eq_refl)
    as (H' & Hchild & Hthis & _ & _ & Hexec).
  exists H'. split_and!; [done| | |].
  - unfold routes_of. by rewrite Hthis.
  - apply (Hexec 1 example_store "/users/42/posts/7" 0 ∅
             [Some "/users/42/posts/7"; Some "42"; Some "posts/7"]
             [MkKey (NameStr "id")] 0 "posts/7" [] 0
             (match_ H' 0 "/users/42/posts/7" ∅)); try reflexivity.
    constructor.
  - assert (H' = (child compile_pattern [new_Router] 0 "/users/:id/" []).1)
      as -> by (by rewrite Hchild).
    eexists. split_and!; reflexivity.
Defined.

Lemma preempted_navigation_never_commits_witness :
  let w0 := run users_heap 0 example_store promise_post [] (init "" 0) in
  let w1 := run users_heap 0 example_store promise_post [Advance 0]
              (navigate users_heap 0 "/users/1" w0) in
  let w2 := run users_heap 0 example_store promise_post
              (replicate 5 (Advance 1)) (navigate users_heap 0 "/users/2" w1) in
  handle_path (currentHandle w0) ≠ "/users/1" ∧
  handle_path (currentHandle w1) ≠ "/users/2" ∧
  state_path (state w2) = "/users/2" ∧
  location_hash w2 = "#/users/2" ∧
  state (advance users_heap example_store promise_post 0 w2) = state w2 ∧
  location_hash (advance users_heap example_store promise_post 0 w2)
    = location_hash w2.
Proof.
  intros w0 w1 w2.
  assert (handle_path (currentHandle w0) ≠ "/users/1") as HA by discriminate.
  assert (handle_path (currentHandle w1) ≠ "/users/2") as HB by discriminate.
  destruct (preempted_navigation_never_commits users_heap 0 example_store
              promise_post "" 0 [] "/users/1" [Advance 0] "/users/2"
              (replicate 5 (Advance 1)) HA HB) as (_ & Hstate & Hhash).
  split_and!; [done|done|reflexivity|reflexivity|exact Hstate|exact Hhash].
Defined.

Lemma repeated_navigate_is_noop_witness :
  let w := init "" 0 in
  let w1 := run users_heap 0 example_store promise_post [Advance 0; Advance 0]
              (navigate users_heap 0 "/users/1" w) in
  handle_path (currentHandle w1) = "/users/1" ∧
  navigate users_heap 0 "/users/1" w1 = w1 ∧
  length (tasks (run users_heap 0 example_store promise_post
                   (Navigate "/users/1" :: [Advance 0; Advance 0]
                      ++ [Navigate "/users/1"]) w)) = 1.
Proof.
  intros w w1.
  destruct (repeated_navigate_is_noop users_heap 0 example_store promise_post
              "/users/1" [Advance 0; Advance 0] w) as [Hsame Htwice].
  destruct Htwice as [Hnoop Hone]; [by repeat constructor|].
  split_and!; [reflexivity|exact Hnoop|].
  apply Hone. discriminate.
Defined.

(** Claim C5, on the code as it is.  The hook is the installed
    [() => {}] and no route matches the path: the bag
    gets [error] and no [route], the first [tap] throws, and nothing is
    committed: [location.hash] and the module's [path] and [params] stay as
    they were and [progress] stays on. *)
Theorem not_found_navigation_is_not_committed :
  let w := run users_heap 0 example_store default_post
             [Navigate "/nowhere"; Advance 0; Advance 0; Advance 0] (init "" 0) in
  (∃ t, tasks w !! 0 = Some t ∧
        get (task_params t) "error" = VError NotFound ∧
        get (task_params t) "route" = VUndefined ∧
        task_phase t = Done (Rejected (no_catch VUndefined))) ∧
  handle_id (currentHandle w) = 1 ∧
  location_hash w = "" ∧
  state w = {| progress := true; state_path := ""; state_params := ∅ |}.
Proof.
  simpl. split_and!; [|reflexivity..]. eexists. split_and!; reflexivity.
Qed.

(** The nested scenario: [/users/42/posts/7] goes through the delegating
    route of the root router to the child's [/posts/:postId]; the bag holds
    both named captures, the innermost router and its route, and no
    [error]. *)
Example nested_routers_scenario :
  ∃ b, exec 2 nested_heap example_store 0 "/users/42/posts/7" (0, ∅)
         = Some (Fulfilled b, (1, b)) ∧
       b !! "id" = Some (VStr "42") ∧
       b !! "postId" = Some (VStr "7") ∧
       b !! "router" = Some (VRouter 1) ∧
       b !! "route" = Some (VRoute 1 0) ∧
       b !! "0" = None ∧
       b !! "error" = None.
Proof. eexists. split_and!; reflexivity. Qed.

(** * Instances of the further properties *)

Lemma match_frame_witness :
  let seed : Bag := {["page" := VStr "2"]} in
  match_ users_heap 0 "/users/42" seed !! "page" = Some (VStr "2").
Proof.
  intros seed.
  rewrite (match_frame users_heap 0 "/users/42" seed "page"); [done..|].
  intros i R Hroute HR.
  assert (i = 0) as -> by (by injection Hroute).
  injection HR as <-. split; [done|]. by repeat constructor.
Defined.


Lemma add_keeps_matches_witness :
  get (match_ users_heap 0 "/users/42" ∅) "route" ≠ VUndefined ∧
  match_ (add compile_pattern users_heap 0 "/:anything" []).1 0 "/users/42" ∅
    = match_ users_heap 0 "/users/42" ∅.
Proof.
  assert (get (match_ users_heap 0 "/users/42" ∅) "route" ≠ VUndefined) as Hf
    by discriminate.
  split; [done|].
  exact (add_keeps_matches compile_pattern users_heap 0 "/:anything" [] 0
           "/users/42" ∅ Hf).
Defined.


Lemma child_keeps_matches_witness :
  match_ (child compile_pattern users_heap 0 "/users/:id/" []).1 0 "/users/42" ∅
    = match_ users_heap 0 "/users/42" ∅.
Proof.
  refine (child_keeps_matches compile_pattern users_heap 0 _ "/users/:id/" []
            "/users/42" ∅ eq_refl _).
  discriminate.
Defined.

Lemma nested_heap_built : Built compile_pattern nested_heap.
Proof.
  apply (Built_add compile_pattern
           (child compile_pattern [new_Router] 0 "/users/:id/" []).1 1
           "/posts/:postId" [StepFunction count_step]).
  - apply (Built_child compile_pattern [new_Router] 0 "/users/:id/" []).
    + apply (Built_new compile_pattern []), Built_nil.
    + by eexists.
    + intros c Hc. by apply elem_of_nil in Hc.
  - by eexists.
  - intros c Hc. apply list_elem_of_singleton in Hc. discriminate.
Defined.

Lemma built_exec_settles_witness :
  delegates_upward nested_heap ∧
  ∃ s' b, exec 3 nested_heap example_store 0 "/users/42/posts/7" (0, ∅)
            = Some (Fulfilled b, (s', b)).
Proof.
  exact (built_exec_settles compile_pattern nested_heap example_store 0
           "/users/42/posts/7" (0, ∅) nested_heap_built).
Defined.

Lemma built_basePath_no_trailing_slash_witness :
  nested_heap !! 1 = Some
    {| basePath := "/users/:id"; baseRoute := Some (0, 0);
       parentRouter := Some 0; storeModule := false;
       routes := [new_Route compile_pattern "/users/:id" "/posts/:postId"
                    [StepFunction count_step]] |} ∧
  no_trailing_slash "/users/:id".
Proof.
  split; [reflexivity|].
  exact (built_basePath_no_trailing_slash compile_pattern nested_heap 1 _
           nested_heap_built eq_refl).
Defined.

Lemma built_child_basePath_witness :
  ∃ C : @Router nat,
    (child compile_pattern nested_heap 1 "/posts/:postId/comments//" []).1
      !! (child compile_pattern nested_heap 1 "/posts/:postId/comments//" []).2
      = Some C ∧
    basePath C = "/users/:id" +:+ normalizePath "/posts/:postId/comments//" ∧
    parentRouter C = Some 1 ∧
    baseRoute C = Some (1, 1).
Proof.
  exact (built_child_basePath compile_pattern nested_heap 1 _
           "/posts/:postId/comments//" [] nested_heap_built eq_refl).
Defined.

Lemma exec_not_found_witness :
  Forall (no_match "/nowhere") (routes_of users_heap 0) ∧
  exec 1 users_heap example_store 0 "/nowhere" (7, ∅) =
    Some (Fulfilled
            (<["error" := VError NotFound]>
               (<["route" := VUndefined]> (<["router" := VRouter 0]> ∅))),
          (7, <["error" := VError NotFound]>
                (<["route" := VUndefined]> (<["router" := VRouter 0]> ∅)))).
Proof.
  assert (Forall (no_match "/nowhere") (routes_of users_heap 0)) as Hall
    by (by repeat constructor).
  split; [done|].
  exact (exec_not_found 0 users_heap example_store 0 "/nowhere" 7 ∅ Hall).
Defined.

Lemma exec_all_fulfilled_witness :
  let b1 := {["section" := VStr "users"]} ∪ match_ users_heap 0 "/users/42" ∅ in
  exec 1 users_heap example_store 0 "/users/42" (0, ∅)
    = Some (Fulfilled b1, (1, b1)) ∧
  b1 !! "error" = None.
Proof.
  intros b1. split; [|reflexivity].
  exact (exec_all_fulfilled 0 users_heap example_store 0 "/users/42" 0 ∅ 0
           users_by_id [None; None] 1 b1 eq_refl eq_refl eq_refl).
Defined.

Lemma delegate_not_found_witness :
  let params := match_ nested_heap 0 "/users/42/likes" ∅ in
  take_rest params = ("/likes", delete "0" (<["length" := VNum 0]> params)) ∧
  ∃ b, run_step (exec 1 nested_heap example_store) example_store
         (StepDelegate 1) (0, params) = Some (Fulfilled (Some b), (0, b)) ∧
       b !! "error" = Some (VError NotFound) ∧
       b !! "router" = Some (VRouter 1) ∧
       b !! "route" = Some VUndefined ∧
       b !! "id" = Some (VStr "42").
Proof.
  intros params. split; [reflexivity|].
  eexists. split.
  - refine (delegate_not_found 0 nested_heap example_store 1 0 params _).
    by repeat constructor.
  - split_and!; reflexivity.
Defined.

Lemma take_rest_missing_capture_witness :
  take_rest (<["length" := VNum 1]> {["id" := VStr "42"]})
    = ("/undefined", <["length" := VNum 0]> (<["length" := VNum 1]> {["id" := VStr "42"]})).
Proof.
  exact (take_rest_missing_capture
           (<["length" := VNum 1]> {["id" := VStr "42"]}) 0 eq_refl eq_refl).
Defined.

Lemma commit_hashchange_is_ignored_witness :
  let w := run users_heap 0 example_store promise_post
             (Navigate "/users/1" :: replicate 4 (Advance 0)) (init "" 0) in
  let w' := advance users_heap example_store promise_post 0 w in
  location_hash w' = "#/users/1" ∧
  state_path (state w') = "/users/1" ∧
  step users_heap 0 example_store promise_post (Hashchange (location_hash w')) w'
    = w'.
Proof.
  intros w w'.
  refine (commit_hashchange_is_ignored users_heap 0 example_store promise_post
            0 _ w "users/1" eq_refl eq_refl eq_refl eq_refl _).
  split; discriminate.
Defined.

Lemma commit_hashchange_renavigates_witness :
  let w := run users_heap 0 example_store promise_post
             [Navigate "about"; Advance 0] (init "" 0) in
  let w' := advance users_heap example_store promise_post 0 w in
  let w'' := step users_heap 0 example_store promise_post
               (Hashchange (location_hash w')) w' in
  state_path (state w') = "about" ∧
  length (tasks w'') = S (length (tasks w')) ∧
  handle_path (currentHandle w'') = "/about" ∧
  progress (state w'') = true.
Proof.
  intros w w' w''. split; [reflexivity|].
  refine (commit_hashchange_renavigates users_heap 0 example_store promise_post
            0 _ w eq_refl eq_refl eq_refl _).
  discriminate.
Defined.

Lemma navigate_commits_exec_result_witness :
  let b1 := {["section" := VStr "users"]} ∪ match_ users_heap 0 "/users/42" ∅ in
  ∃ n,
    let w' := run users_heap 0 example_store promise_post
                (replicate n (Advance 0))
                (navigate users_heap 0 "/users/42" (init "" 0)) in
    state w' = {| progress := false; state_path := "/users/42";
                  state_params := b1 |} ∧
    location_hash w' = "#/users/42" ∧
    rootState w' = 1 ∧
    currentHandle w' = {| handle_id := 1; handle_path := "/users/42" |}.
Proof.
  intros b1.
  refine (navigate_commits_exec_result users_heap 0 example_store promise_post
            1 "/users/42" (init "" 0) (Fulfilled b1) 1 b1 (Fulfilled tt) 1 b1
            _ eq_refl eq_refl).
  discriminate.
Defined.

Lemma child_old_agrees_witness :
  child_old compile_pattern nested_heap 1 "/posts/:postId/comments//" [] =
    (alter (λ C, {| basePath := basePath C; baseRoute := None;
                    parentRouter := parentRouter C;
                    storeModule := storeModule C; routes := routes C |})
       2 (child compile_pattern nested_heap 1 "/posts/:postId/comments//" []).1,
     2).
Proof.
  exact (child_old_agrees compile_pattern nested_heap 1 _
           "/posts/:postId/comments//" [] nested_heap_built eq_refl).
Defined.

Lemma old_navigate_commits_exec_result_witness :
  let b1 := {["section" := VStr "users"]} ∪ match_ users_heap 0 "/users/42" ∅ in
  ∃ n,
    let w' := Nat.iter n (advance_old users_heap example_store default_post 0)
                (navigate users_heap 0 "/users/42" (init "" 0)) in
    state w' = {| progress := false; state_path := "/users/42";
                  state_params := b1 |} ∧
    location_hash w' = "#/users/42" ∧
    rootState w' = 1.
Proof.
  intros b1.
  refine (old_navigate_commits_exec_result users_heap 0 example_store default_post
            1 "/users/42" (init "" 0) (Fulfilled b1) 1 b1 (HookReturns VUndefined)
            1 b1 _ eq_refl eq_refl _).
  - discriminate.
  - intros e. split; discriminate.
Defined.

Lemma old_hook_failure_aborts_witness :
  let w := navigate users_heap 0 "/nowhere" (init "" 0) in
  ∃ t, tasks w !! 0 = Some t ∧
       task_phase t = Executing [] ∧
       Nat.iter 3 (advance_old users_heap example_store throwing_post 0) w =
         set_task 0 {| task_handle := task_handle t;
                       task_params := task_params t;
                       task_phase := Done (Rejected params_not_defined) |} 0 w.
Proof.
  intros w. eexists. split; [reflexivity|]. split; [reflexivity|].
  refine (old_hook_failure_aborts users_heap example_store throwing_post 0 _ w
            (HookThrows Boom) 0 _ 2 eq_refl eq_refl eq_refl _).
  exists Boom. by left.
Defined.
